(** * Hybrid memory retrieval, embedding cache and dreaming step of the azera backend

    Shallow embedding of
    - the retrieval merge of [handle_chat_stream] (src/backend/src/handlers.rs),
      together with [meili_search_memories] and [meili_search_chats_for_rag];
    - [CacheService::embedding_key], [cache_embedding] and
      [get_cached_embedding] (src/backend/src/cache.rs);
    - [dreaming_system] (src/backend/src/systems.rs);
    - the session context, signal queue and tool history entries of
      [CacheService] (src/backend/src/cache.rs);
    - [generate_embedding_cached], [generate_embedding] and
      [store_memory_cached] (src/backend/src/vector.rs);
    - [perception_system] and [reflection_system] (src/backend/src/systems.rs);
    - [extract_image_gen_requests], [chunk_text_for_tts],
      [concatenate_wav_audio] and the session summary of
      [handle_chat_stream] (src/backend/src/handlers.rs).

    Rust [String]/[&str] values are lists of Unicode scalar values ([Z]);
    [len()] and slicing work on their UTF-8 byte offsets, and a slice that
    does not end on a character boundary panics, modelled by [None]. *)

From Stdlib Require Import ZArith QArith Qminmax List Bool Lia String Ascii.
Import ListNotations.
Open Scope Z_scope.

(* ------------------------------------------------------------------ *)
(** ** Rust strings *)

(** A Rust string: its sequence of Unicode scalar values. *)
Definition rstr := list Z.

(** String literals of the source (all ASCII). *)
Fixpoint rs (s : string) : rstr :=
  match s with
  | EmptyString => []
  | String a s' => Z.of_nat (nat_of_ascii a) :: rs s'
  end.

(** Number of UTF-8 bytes of one scalar value. *)
Definition utf8_width (c : Z) : nat :=
  if c <? 128 then 1%nat
  else if c <? 2048 then 2%nat
  else if c <? 65536 then 3%nat
  else 4%nat.

(** [str::len]: length in bytes. *)
Fixpoint str_len (s : rstr) : nat :=
  match s with
  | [] => 0%nat
  | c :: s' => (utf8_width c + str_len s')%nat
  end.

(** [&s[..n]]: the prefix of [n] bytes; panics ([None]) when [n] is past the
    end or falls inside the encoding of a character. *)
Fixpoint str_slice_to (s : rstr) (n : nat) : option rstr :=
  match n with
  | O => Some []
  | S _ =>
      match s with
      | [] => None
      | c :: s' =>
          if Nat.ltb n (utf8_width c) then None
          else option_map (cons c) (str_slice_to s' (n - utf8_width c))
      end
  end.

(** [s.chars().take(n).collect::<String>()]. *)
Definition chars_take (n : nat) (s : rstr) : rstr := firstn n s.
Arguments chars_take : simpl never.

Definition rstr_eqb (a b : rstr) : bool :=
  if list_eq_dec Z.eq_dec a b then true else false.

(** [HashSet<String>::insert] on the set [seen]: [true] when the key is new. *)
Definition set_contains (seen : list rstr) (k : rstr) : bool :=
  existsb (rstr_eqb k) seen.

(* ------------------------------------------------------------------ *)
(** ** JSON payloads and search hits *)

(** The part of [serde_json::Value] the merge inspects: strings, and
    everything else (numbers, arrays, objects, null), which [as_str] maps
    to [None]. *)
Inductive jvalue :=
| JStr (s : rstr)
| JOther.

(** A JSON object / [HashMap<String, Value>] with distinct field names. *)
Definition obj := list (string * jvalue).

Fixpoint obj_get (o : obj) (k : string) : option jvalue :=
  match o with
  | [] => None
  | (k', v) :: o' => if String.eqb k k' then Some v else obj_get o' k
  end.

(** [o.get(k).and_then(|v| v.as_str())], also [o[k].as_str()]. *)
Definition get_str (o : obj) (k : string) : option rstr :=
  match obj_get o k with
  | Some (JStr s) => Some s
  | _ => None
  end.

(** [vector::SearchResult]; the [f32] score is an exact rational (every
    finite [f32] is one, and [<] on them is the order of the rationals). *)
Record SearchResult := mkSearchResult {
  sr_id : rstr;
  sr_score : Q;
  sr_payload : obj
}.

(** Elements of the merged context ([context_parts]); each constructor is
    one of the three [format!] shapes
    ["[semantic:{role}] {text}"], ["[{mem_type}:{title}] {text}"] and
    ["[chat:{title}] {text}"]. *)
Inductive part :=
| PSemantic (role text : rstr)
| PLexical (mem_type title text : rstr)
| PChat (title text : rstr).

Definition render_part (p : part) : rstr :=
  match p with
  | PSemantic role t => rs "[semantic:" ++ role ++ rs "] " ++ t
  | PLexical mt ti t => rs "[" ++ mt ++ rs ":" ++ ti ++ rs "] " ++ t
  | PChat ti t => rs "[chat:" ++ ti ++ rs "] " ++ t
  end.

Definition q_lt (x y : Q) : bool := negb (Qle_bool y x).

(** [f32] arithmetic. Every finite [f32] is a rational; an [f32] literal
    and the result of an [f32] operation are the exact value rounded to
    binary32 (24-bit significand, exponents down to -126, subnormals
    below), ties to even. [rne_div n d] is [n / d] rounded that way, for
    [0 <= n] and [0 < d]; [ge_pow2 n d e] tests [2^e <= n / d]. Results
    beyond [f32::MAX], which the operations used below do not produce from
    finite operands, are not turned into infinities. *)
Definition rne_div (n d : Z) : Z :=
  let q := n / d in
  match Z.compare (2 * (n mod d)) d with
  | Lt => q
  | Gt => q + 1
  | Eq => if Z.even q then q else q + 1
  end.

Definition ge_pow2 (n d e : Z) : bool :=
  if 0 <=? e then d * 2 ^ e <=? n else d <=? n * 2 ^ (- e).

Definition f32_round (x : Q) : Q :=
  let n := Z.abs (Qnum x) in
  let d := Zpos (Qden x) in
  if n =? 0 then 0%Q else
  let e0 := Z.log2 n - Z.log2 d in
  let e := if ge_pow2 n d e0 then e0 else e0 - 1 in
  let k := Z.max e (-126) - 23 in
  let v := if 0 <=? k then inject_Z (rne_div n (d * 2 ^ k) * 2 ^ k)
           else rne_div (n * 2 ^ (- k)) d # Z.to_pos (2 ^ (- k)) in
  if Qnum x <? 0 then (- v)%Q else v.

Definition f32_add (x y : Q) : Q := f32_round (x + y).
Definition f32_sub (x y : Q) : Q := f32_round (x - y).
Definition f32_mul (x y : Q) : Q := f32_round (x * y).

(** The score gate constant [0.45], an [f32] literal compared with the
    [f32] score: its value is the binary32 number nearest to 0.45, i.e.
    15099494 / 2^25 = 7549747 / 2^24 (0.449999988079071044921875), slightly
    below the decimal 0.45. *)
Definition score_gate : Q := f32_round (45 # 100).

(** Per-source truncation caps, in bytes ([content.len().min(cap)]). *)
Definition semantic_cap : nat := 400.
Definition lexical_cap : nat := 500.
Definition chat_cap : nat := 300.

(** Length of the dedup key. *)
Definition key_len : nat := 100.

(** chrono: [Duration::num_seconds] of a duration in nanoseconds
    (truncation toward zero) and [num_hours]. *)
Definition num_seconds (d : Z) : Z := Z.quot d 1000000000.
Definition num_hours (d : Z) : Z := Z.quot (num_seconds d) 3600.

(** State of the merge loop: [seen_content] and [context_parts]. *)
Record merge_state := mkMS { seen : list rstr; parts : list part }.

(** Left fold of a step that may panic. *)
Fixpoint fold_opt {A : Type} (step : merge_state -> A -> option merge_state)
  (l : list A) (st : merge_state) : option merge_state :=
  match l with
  | [] => Some st
  | x :: l' =>
      match step st x with
      | Some st' => fold_opt step l' st'
      | None => None
      end
  end.

Section Merge.

(** [chrono::DateTime::parse_from_rfc3339], giving the instant in
    nanoseconds since the epoch (library code, left abstract). *)
Variable parse_rfc3339 : rstr -> option Z.
(** [chrono::Utc::now()] when the merge starts, in nanoseconds. *)
Variable now : Z.

(** The echo-avoidance test of the semantic loop. *)
Definition too_recent (r : SearchResult) : bool :=
  match get_str (sr_payload r) "timestamp" with
  | Some ts =>
      match parse_rfc3339 ts with
      | Some mem_time => num_seconds (now - mem_time) <? 60
      | None => false
      end
  | None => false
  end.

(** One iteration of [for r in &semantic_results]. *)
Definition semantic_step (st : merge_state) (r : SearchResult) : option merge_state :=
  if q_lt (sr_score r) score_gate then Some st
  else if too_recent r then Some st
  else
    let role := match get_str (sr_payload r) "role" with
                | Some s => s | None => rs "unknown" end in
    match get_str (sr_payload r) "content" with
    | Some content =>
        let key := chars_take key_len content in
        if set_contains (seen st) key then Some st
        else
          match str_slice_to content (Nat.min (str_len content) semantic_cap) with
          | Some t => Some (mkMS (key :: seen st) (parts st ++ [PSemantic role t]))
          | None => None
          end
    | None => Some st
    end.

(** One iteration of [for hit in &lexical_results]. *)
Definition lexical_step (st : merge_state) (hit : obj) : option merge_state :=
  match get_str hit "content" with
  | Some content =>
      let key := chars_take key_len content in
      if set_contains (seen st) key then Some st
      else
        let mem_type := match get_str hit "memory_type" with
                        | Some s => s | None => rs "unknown" end in
        let title := match get_str hit "title" with
                     | Some s => s | None => [] end in
        match str_slice_to content (Nat.min (str_len content) lexical_cap) with
        | Some t => Some (mkMS (key :: seen st) (parts st ++ [PLexical mem_type title t]))
        | None => None
        end
  | None => Some st
  end.

(** The id of the current chat. *)
Variable chat_id : rstr.

(** One iteration of [for hit in &lexical_chats]. *)
Definition chat_step (st : merge_state) (hit : obj) : option merge_state :=
  if match get_str hit "id" with
     | Some i => rstr_eqb i chat_id
     | None => false
     end
  then Some st
  else
    match get_str hit "messages_text" with
    | Some text =>
        let key := chars_take key_len text in
        if set_contains (seen st) key then Some st
        else
          let title := match get_str hit "title" with
                       | Some s => s | None => rs "past chat" end in
          match str_slice_to text (Nat.min (str_len text) chat_cap) with
          | Some t => Some (mkMS (key :: seen st) (parts st ++ [PChat title t]))
          | None => None
          end
    | None => Some st
    end.

(** Step 3 of the retrieval: the three loops, from an empty set and an
    empty [context_parts]; [None] is a panic. *)
Definition merge_parts (semantic_results : list SearchResult)
  (lexical_results lexical_chats : list obj) : option (list part) :=
  match fold_opt semantic_step semantic_results (mkMS [] []) with
  | None => None
  | Some st1 =>
      match fold_opt lexical_step lexical_results st1 with
      | None => None
      | Some st2 =>
          match fold_opt chat_step lexical_chats st2 with
          | None => None
          | Some st3 => Some (parts st3)
          end
      end
  end.

End Merge.

(* ------------------------------------------------------------------ *)
(** ** The retrieval as seen by its caller *)

Inductive result (A E : Type) :=
| Ok (a : A)
| Err (e : E).
Arguments Ok {A E} a.
Arguments Err {A E} e.

(** What a Meilisearch request can come back with: the [send()] failed,
    or a response whose body does ([Some]) or does not ([None]) parse as
    JSON; a parsed body has a ["hits"] array ([Some hits]) or not. *)
Inductive http_outcome :=
| SendErr
| Resp (body : option (option (list obj))).

(** Response handling of [meili_search_memories]:
    [json["hits"].as_array().cloned().unwrap_or_default()], and [Vec::new()]
    on every failure. *)
Definition meili_search_memories (o : http_outcome) : list obj :=
  match o with
  | Resp (Some (Some hits)) => hits
  | Resp (Some None) => []
  | Resp None => []
  | SendErr => []
  end.

(** Response handling of [meili_search_chats_for_rag] (the same shape). *)
Definition meili_search_chats_for_rag (o : http_outcome) : list obj :=
  match o with
  | Resp (Some (Some hits)) => hits
  | Resp (Some None) => []
  | Resp None => []
  | SendErr => []
  end.

Fixpoint uint_digits (u : Decimal.uint) : rstr :=
  match u with
  | Decimal.Nil => []
  | Decimal.D0 u' => 48 :: uint_digits u'
  | Decimal.D1 u' => 49 :: uint_digits u'
  | Decimal.D2 u' => 50 :: uint_digits u'
  | Decimal.D3 u' => 51 :: uint_digits u'
  | Decimal.D4 u' => 52 :: uint_digits u'
  | Decimal.D5 u' => 53 :: uint_digits u'
  | Decimal.D6 u' => 54 :: uint_digits u'
  | Decimal.D7 u' => 55 :: uint_digits u'
  | Decimal.D8 u' => 56 :: uint_digits u'
  | Decimal.D9 u' => 57 :: uint_digits u'
  end.

(** [format!("{}", n)] for a [usize]. *)
Definition fmt_nat (n : nat) : rstr := uint_digits (Nat.to_uint n).

Definition newline : rstr := [10].

(** [.enumerate().map(|(i, m)| format!("{}. {}", i + 1, m))]. *)
Fixpoint numbered (i : nat) (ps : list part) : list rstr :=
  match ps with
  | [] => []
  | p :: ps' => (fmt_nat (S i) ++ rs ". " ++ render_part p) :: numbered (S i) ps'
  end.

(** [.join("\n")]. *)
Fixpoint join_lines (ls : list rstr) : rstr :=
  match ls with
  | [] => []
  | [l] => l
  | l :: ls' => l ++ newline ++ join_lines ls'
  end.

(** The [if !context_parts.is_empty() { format!(...) } else { String::new() }]
    that ends the retrieval. *)
Definition memory_context_of (ps : list part) : rstr :=
  match ps with
  | [] => []
  | _ => newline ++ newline ++ rs "[Relevant memories from past conversations:]"
           ++ newline ++ join_lines (numbered 0 ps)
  end.

(** The retrieval block of [handle_chat_stream] when global memory is on:
    the semantic leg's [Result] is matched with [Err(e) => Vec::new()], the
    two lexical legs are the Meilisearch calls; [None] is a panic. *)
Definition hybrid_memory_context (parse_rfc3339 : rstr -> option Z) (now : Z)
  (chat_id : rstr) (semantic : result (list SearchResult) rstr)
  (lexical_resp chats_resp : http_outcome) : option rstr :=
  let semantic_results := match semantic with
                          | Ok results => results
                          | Err _ => []
                          end in
  let lexical_results := meili_search_memories lexical_resp in
  let lexical_chats := meili_search_chats_for_rag chats_resp in
  match merge_parts parse_rfc3339 now chat_id semantic_results lexical_results lexical_chats with
  | Some context_parts => Some (memory_context_of context_parts)
  | None => None
  end.

(* ------------------------------------------------------------------ *)
(** ** The merge as the spec describes it (for the refinement of C1)

    Candidates, in the order semantic, lexical, chat, each with its content,
    its cap and its display; duplicates by the first 100 characters of the
    content are dropped, the earliest being kept; every kept candidate is
    truncated to its cap. *)

Record cand := mkCand { c_content : rstr; c_cap : nat; c_mk : rstr -> part }.

Section SpecMerge.
Variable parse_rfc3339 : rstr -> option Z.
Variable now : Z.
Variable chat_id : rstr.

Definition semantic_cand (r : SearchResult) : list cand :=
  if q_lt (sr_score r) score_gate || too_recent parse_rfc3339 now r then []
  else
    match get_str (sr_payload r) "content" with
    | Some c =>
        [mkCand c semantic_cap
           (PSemantic (match get_str (sr_payload r) "role" with
                       | Some s => s | None => rs "unknown" end))]
    | None => []
    end.

Definition lexical_cand (hit : obj) : list cand :=
  match get_str hit "content" with
  | Some c =>
      [mkCand c lexical_cap
         (PLexical (match get_str hit "memory_type" with
                    | Some s => s | None => rs "unknown" end)
                   (match get_str hit "title" with
                    | Some s => s | None => [] end))]
  | None => []
  end.

Definition chat_cand (hit : obj) : list cand :=
  if match get_str hit "id" with
     | Some i => rstr_eqb i chat_id
     | None => false
     end
  then []
  else
    match get_str hit "messages_text" with
    | Some c =>
        [mkCand c chat_cap
           (PChat (match get_str hit "title" with
                   | Some s => s | None => rs "past chat" end))]
    | None => []
    end.

Definition all_cands (sem : list SearchResult) (lex chats : list obj) : list cand :=
  flat_map semantic_cand sem ++ flat_map lexical_cand lex ++ flat_map chat_cand chats.

End SpecMerge.

(** Keep the first candidate of every key. *)
Fixpoint dedup_first (seen_keys : list rstr) (cs : list cand) : list cand :=
  match cs with
  | [] => []
  | c :: cs' =>
      let k := chars_take key_len (c_content c) in
      if set_contains seen_keys k then dedup_first seen_keys cs'
      else c :: dedup_first (k :: seen_keys) cs'
  end.

Definition truncate_cand (c : cand) : option part :=
  option_map (c_mk c)
    (str_slice_to (c_content c) (Nat.min (str_len (c_content c)) (c_cap c))).

Fixpoint map_opt {A B : Type} (f : A -> option B) (l : list A) : option (list B) :=
  match l with
  | [] => Some []
  | x :: l' =>
      match f x with
      | Some y => option_map (cons y) (map_opt f l')
      | None => None
      end
  end.

Definition spec_merge (parse_rfc3339 : rstr -> option Z) (now : Z) (chat_id : rstr)
  (sem : list SearchResult) (lex chats : list obj) : option (list part) :=
  map_opt truncate_cand (dedup_first [] (all_cands parse_rfc3339 now chat_id sem lex chats)).

(** One merge step over a candidate. *)
Definition cand_step (st : merge_state) (c : cand) : option merge_state :=
  let key := chars_take key_len (c_content c) in
  if set_contains (seen st) key then Some st
  else
    match truncate_cand c with
    | Some p => Some (mkMS (key :: seen st) (parts st ++ [p]))
    | None => None
    end.

(* ------------------------------------------------------------------ *)
(** ** Embedding cache ([cache.rs]) *)

(** UTF-8 encoding of one scalar value ([str::as_bytes]). *)
Definition utf8_encode_char (c : Z) : list Z :=
  if c <? 128 then [c]
  else if c <? 2048 then [192 + c / 64; 128 + c mod 64]
  else if c <? 65536 then [224 + c / 4096; 128 + (c / 64) mod 64; 128 + c mod 64]
  else [240 + c / 262144; 128 + (c / 4096) mod 64; 128 + (c / 64) mod 64;
        128 + c mod 64].

Definition utf8_bytes (s : rstr) : list Z := flat_map utf8_encode_char s.

(** [hex::encode]: two lowercase digits per byte, high nibble first. *)
Definition hex_digit (n : Z) : Z := if n <? 10 then 48 + n else 87 + n.

Definition hex_encode (bs : list Z) : rstr :=
  flat_map (fun b => [hex_digit (Z.shiftr b 4); hex_digit (Z.land b 15)]) bs.

(** The Redis store behind [CacheService::get]/[set]: a value and the
    instant (in seconds) at which its [EX] expiry removes it. *)
Definition store := rstr -> option (rstr * Z).

(** [SET key value EX ttl]. *)
Definition cache_set (st : store) (now : Z) (k v : rstr) (ttl : Z) : store :=
  fun k' => if rstr_eqb k' k then Some (v, now + ttl) else st k'.

(** [GET key]. *)
Definition cache_get (st : store) (now : Z) (k : rstr) : option rstr :=
  match st k with
  | Some (v, expiry) => if now <? expiry then Some v else None
  | None => None
  end.

(** An [f32] is handled by its 32-bit pattern; [f32::to_le_bytes]. *)
Definition f32_to_le_bytes (w : Z) : list Z :=
  [Z.land w 255; Z.land (Z.shiftr w 8) 255; Z.land (Z.shiftr w 16) 255;
   Z.land (Z.shiftr w 24) 255].

(** [f32::from_le_bytes([b0, b1, b2, b3])]. *)
Definition f32_from_le_bytes (b0 b1 b2 b3 : Z) : Z :=
  b0 + 256 * b1 + 65536 * b2 + 16777216 * b3.

(** [chunks_exact(4)]: the incomplete tail chunk is dropped. *)
Fixpoint chunks_exact4 (bs : list Z) : list (Z * Z * Z * Z) :=
  match bs with
  | b0 :: b1 :: b2 :: b3 :: rest => (b0, b1, b2, b3) :: chunks_exact4 rest
  | _ => []
  end.

(** The [base64] crate's [STANDARD] engine (alphabet [A-Za-z0-9+/], padded
    with [=], canonical trailing bits required when decoding). *)
Definition b64_char (n : Z) : Z :=
  if n <? 26 then 65 + n
  else if n <? 52 then 71 + n
  else if n <? 62 then n - 4
  else if n =? 62 then 43
  else 47.

Definition b64_pad : Z := 61.

Definition b64_value (c : Z) : option Z :=
  if (65 <=? c) && (c <=? 90) then Some (c - 65)
  else if (97 <=? c) && (c <=? 122) then Some (c - 71)
  else if (48 <=? c) && (c <=? 57) then Some (c + 4)
  else if c =? 43 then Some 62
  else if c =? 47 then Some 63
  else None.

(** Three bytes as one 24-bit group and its four sextets. *)
Definition group3 (a b c : Z) : Z := a * 65536 + b * 256 + c.

Definition sextets (n : Z) : list Z :=
  [b64_char (n / 262144); b64_char ((n / 4096) mod 64);
   b64_char ((n / 64) mod 64); b64_char (n mod 64)].

Fixpoint b64_encode (bs : list Z) : rstr :=
  match bs with
  | a :: b :: c :: rest => sextets (group3 a b c) ++ b64_encode rest
  | [a; b] => firstn 3 (sextets (group3 a b 0)) ++ [b64_pad]
  | [a] => firstn 2 (sextets (group3 a 0 0)) ++ [b64_pad; b64_pad]
  | [] => []
  end.

Definition ungroup (v1 v2 v3 v4 : Z) : Z :=
  v1 * 262144 + v2 * 4096 + v3 * 64 + v4.

Fixpoint b64_decode (cs : rstr) : option (list Z) :=
  match cs with
  | [] => Some []
  | c1 :: c2 :: c3 :: c4 :: rest =>
      match b64_value c1, b64_value c2 with
      | Some v1, Some v2 =>
          if (c3 =? b64_pad) && (c4 =? b64_pad) then
            match rest with
            | [] => if v2 mod 16 =? 0 then Some [ungroup v1 v2 0 0 / 65536] else None
            | _ => None
            end
          else if c4 =? b64_pad then
            match b64_value c3, rest with
            | Some v3, [] =>
                if v3 mod 4 =? 0
                then Some [ungroup v1 v2 v3 0 / 65536; (ungroup v1 v2 v3 0 / 256) mod 256]
                else None
            | _, _ => None
            end
          else
            match b64_value c3, b64_value c4 with
            | Some v3, Some v4 =>
                let m := ungroup v1 v2 v3 v4 in
                option_map (fun t => [m / 65536; (m / 256) mod 256; m mod 256] ++ t)
                  (b64_decode rest)
            | _, _ => None
            end
      | _, _ => None
      end
  | _ => None
  end.

(** Embeddings are cached for 7 days. *)
Definition embedding_ttl : Z := 604800.

Section EmbeddingCache.

(** [sha2::Sha256] (library code, left abstract): bytes to digest bytes. *)
Variable sha256 : list Z -> list Z.

(** [CacheService::embedding_key]: [format!("emb:{}", &hash[..16])];
    [None] is the panic of the slice. *)
Definition embedding_key (text : rstr) : option rstr :=
  let hash := hex_encode (sha256 (utf8_bytes text)) in
  option_map (fun h => rs "emb:" ++ h) (str_slice_to hash 16).

(** [CacheService::cache_embedding]: the new store, [None] on a panic. *)
Definition cache_embedding (st : store) (now : Z) (text : rstr) (embedding : list Z)
  : option store :=
  match embedding_key text with
  | Some key =>
      let bytes := flat_map f32_to_le_bytes embedding in
      let encoded := b64_encode bytes in
      Some (cache_set st now key encoded embedding_ttl)
  | None => None
  end.

(** [CacheService::get_cached_embedding]: [Some (Ok ..)] as [Some ..];
    [None] on a panic. *)
Definition get_cached_embedding (st : store) (now : Z) (text : rstr)
  : option (option (list Z)) :=
  match embedding_key text with
  | Some key =>
      match cache_get st now key with
      | Some encoded =>
          match b64_decode encoded with
          | Some bytes =>
              Some (Some (map (fun '(b0, b1, b2, b3) => f32_from_le_bytes b0 b1 b2 b3)
                            (chunks_exact4 bytes)))
          | None => Some None
          end
      | None => Some None
      end
  | None => None
  end.

End EmbeddingCache.

(* ------------------------------------------------------------------ *)
(** ** The dreaming step ([systems.rs]) *)

(** [components::MentalState]; instants in nanoseconds, the [f32] fields as
    rationals. *)
Record MentalState := mkMentalState {
  mood : Q;
  energy : Q;
  is_dreaming : bool;
  last_active : Z;
  last_dream : option Z;
  focus_level : Q
}.

(** The part of [components::AgentConfig] the step reads ([u64]). *)
Record AgentConfig := mkAgentConfig { dream_threshold_seconds : Z }.

(** [DREAM_INTERVAL_HOURS]: unset ([None]), set but not an [i64]
    ([Some None]), or set to [h] ([Some (Some h)]); the two first give 7. *)
Definition dream_cooldown_hours (env : option (option Z)) : Z :=
  match env with
  | Some (Some h) => h
  | _ => 7
  end.

(** [x as u64] for an [i64]. *)
Definition as_u64 (x : Z) : Z := x mod 18446744073709551616.

(** The activation test of [dreaming_system], at instant [now]. *)
Definition dream_gate (now : Z) (env : option (option Z)) (cfg : AgentConfig)
  (ms : MentalState) : bool :=
  let time_since_active := as_u64 (num_seconds (now - last_active ms)) in
  let cooldown := dream_cooldown_hours env in
  let can_dream := match last_dream ms with
                   | Some ld => cooldown <=? num_hours (now - ld)
                   | None => true
                   end in
  (dream_threshold_seconds cfg <? time_since_active) && negb (is_dreaming ms) && can_dream.

(** Outcome of [llm.infer] on the dream prompt. *)
Inductive gen_outcome :=
| GenOk (dream_content : rstr)
| GenErr (e : rstr).

(** Writes the step performs outside the mental state. *)
Inductive dream_effect :=
| SaveDream (content : rstr)          (* db::create_dream *)
| IndexDreamLexical (content : rstr)  (* meili_index_dream *)
| StoreDreamSemantic (content : rstr) (* vector::store_memory_cached *)
| ArchiveDreamFile (content : rstr)   (* ../archive/dreams/*.md *)
| LogInfo
| LogError.

(** [dreaming_system] with the agent's mental state threaded through:
    [now] is the instant of the test, [t_dream] and [t_active] the two
    [Utc::now()] of the final write. *)
Definition dreaming_system (now t_dream t_active : Z) (env : option (option Z))
  (cfg : AgentConfig) (ms : MentalState) (gen : gen_outcome)
  : MentalState * list dream_effect :=
  if dream_gate now env cfg ms then
    let ms1 := mkMentalState (Qmin (f32_add (mood ms) (f32_round (1 # 10))) 1) (energy ms) true
                 (last_active ms) (last_dream ms) (focus_level ms) in
    let effects :=
      match gen with
      | GenOk c => [SaveDream c; IndexDreamLexical c; StoreDreamSemantic c;
                    ArchiveDreamFile c; LogInfo]
      | GenErr _ => [LogError]
      end in
    (mkMentalState (mood ms1) (energy ms1) false t_active (Some t_dream) (focus_level ms1),
     effects)
  else (ms, []).

(* ------------------------------------------------------------------ *)
(** ** Concrete inputs used by the examples below *)

Definition sem_hit (content : rstr) (score : Q) : SearchResult :=
  mkSearchResult (rs "q1") score [("role"%string, JStr (rs "user")); ("content"%string, JStr content)].

Definition lex_hit (content : rstr) : obj :=
  [("memory_type"%string, JStr (rs "fact")); ("title"%string, JStr (rs "pets")); ("content"%string, JStr content)].

Definition mem_A : rstr := rs "The user's cat is called Miso.".
Definition mem_B : rstr := rs "The user works night shifts at the hospital.".
Definition mem_C : rstr := rs "Dream about a lighthouse made of glass.".

Definition sem_hit_at (content : rstr) (score : Q) (ts : rstr) : SearchResult :=
  mkSearchResult (rs "q2") score
    [("role"%string, JStr (rs "assistant")); ("timestamp"%string, JStr ts);
     ("content"%string, JStr content)].

(** A multi-byte content: ["a"] followed by 400 times U+00E9 (2 bytes each). *)
Definition content_mb_401 : rstr := 97 :: repeat 233 400.

(** Key of a candidate, its bytes, [f32] bit patterns, hex digits, hours. *)
Definition cand_key (c : cand) : rstr := chars_take key_len (c_content c).

Definition is_byte (b : Z) : Prop := 0 <= b < 256.

Definition is_f32_bits (w : Z) : Prop := 0 <= w < 4294967296.

Definition is_lower_hex (c : Z) : Prop := (48 <= c <= 57) \/ (97 <= c <= 102).

Definition hour_ns : Z := 3600 * 1000000000.

(* ------------------------------------------------------------------ *)
(** ** Session context ([CacheService::update_session_after_exchange]) *)

(** [cache::SessionContext]; instants in seconds. *)
Record SessionContext := mkSession {
  chat_id : rstr;
  conversation_summary : rstr;
  active_goal : option rstr;
  recent_topics : list rstr;
  turn_count : Z;
  user_persona_id : option rstr;
  ai_persona_id : option rstr;
  last_user_message : rstr;
  last_assistant_message : rstr;
  updated_at : Z
}.

(** [turn_count += 1] on a [u32] (release build: wraps at [2^32]). *)
Definition u32_add1 (n : Z) : Z := (n + 1) mod 4294967296.

(** The topic loop: [if !recent_topics.contains(&topic) { push(topic) }]. *)
Fixpoint push_new_topics (recent topics : list rstr) : list rstr :=
  match topics with
  | [] => recent
  | t :: ts => push_new_topics (if set_contains recent t then recent else recent ++ [t]) ts
  end.

(** [if len > 10 { drain(..len - 10) }]. *)
Definition keep_last_topics (l : list rstr) : list rstr :=
  if Nat.ltb 10 (List.length l) then skipn (List.length l - 10) l else l.

(** Sessions live 24 hours ([EX 86400]). *)
Definition session_ttl : Z := 86400.

(** The session entries of the store.  [set_session] writes
    [serde_json::to_string(session)] and [get_session] reads it back with
    [serde_json::from_str]; the derived (de)serialisation of a
    [SessionContext] gives back the same value, so an entry is modelled by
    the session itself with its expiry instant. *)
Definition session_store := rstr -> option (SessionContext * Z).

(** [CacheService::session_key]: [format!("cognitive:session:{}", chat_id)]. *)
Definition session_key (cid : rstr) : rstr := rs "cognitive:session:" ++ cid.

(** [CacheService::set_session]: [SET key json EX 86400]. *)
Definition set_session (st : session_store) (now : Z) (s : SessionContext) : session_store :=
  fun k => if rstr_eqb k (session_key (chat_id s)) then Some (s, now + session_ttl) else st k.

(** [CacheService::get_session]. *)
Definition get_session (st : session_store) (now : Z) (cid : rstr) : option SessionContext :=
  match st (session_key cid) with
  | Some (s, expiry) => if now <? expiry then Some s else None
  | None => None
  end.

(** The [unwrap_or(SessionContext { .. })] default. *)
Definition default_session (cid : rstr) (now : Z) : SessionContext :=
  mkSession cid [] None [] 0 None None [] [] now.

(** The field updates of [update_session_after_exchange]. *)
Definition exchange_update (session : SessionContext) (now : Z) (user_msg assistant_msg summary : rstr)
  (topics : list rstr) : SessionContext :=
  mkSession (chat_id session) summary (active_goal session)
    (keep_last_topics (push_new_topics (recent_topics session) topics))
    (u32_add1 (turn_count session)) (user_persona_id session) (ai_persona_id session)
    user_msg assistant_msg now.

(** [CacheService::update_session_after_exchange] at instant [now]. *)
Definition update_session_after_exchange (st : session_store) (now : Z)
  (cid user_msg assistant_msg summary : rstr) (topics : list rstr) : session_store :=
  let session := match get_session st now cid with
                 | Some s => s
                 | None => default_session cid now
                 end in
  set_session st now (exchange_update session now user_msg assistant_msg summary topics).

(* ------------------------------------------------------------------ *)
(** ** Redis lists: signal queue and tool history ([cache.rs]) *)

(** The list values of the store; a missing key is the empty list (Redis
    deletes a list when it becomes empty). *)
Definition lstore := rstr -> list rstr.

Definition lstore_set (ls : lstore) (k : rstr) (l : list rstr) : lstore :=
  fun k' => if rstr_eqb k' k then l else ls k'.

(** [RPUSH key v]. *)
Definition rpush (ls : lstore) (k v : rstr) : lstore := lstore_set ls k (ls k ++ [v]).

(** [LPOP key]. *)
Definition lpop (ls : lstore) (k : rstr) : option rstr * lstore :=
  match ls k with
  | [] => (None, ls)
  | x :: rest => (Some x, lstore_set ls k rest)
  end.

(** The index range of [LRANGE key start stop] (and the part [LTRIM] keeps):
    negative indices count from the end, [start] is clamped at 0, [stop]
    at the last index, and an empty range gives the empty list. *)
Definition redis_range (l : list rstr) (start stop : Z) : list rstr :=
  let n := Z.of_nat (List.length l) in
  let s := if start <? 0 then n + start else start in
  let e := if stop <? 0 then n + stop else stop in
  let s := Z.max 0 s in
  if (e <? s) || (n <=? s) then []
  else firstn (Z.to_nat (Z.min e (n - 1) - s + 1)) (skipn (Z.to_nat s) l).

(** [CacheService::queue_signal] and [CacheService::dequeue_signal]. *)
Definition queue_signal (ls : lstore) (queue signal : rstr) : lstore := rpush ls queue signal.

Definition dequeue_signal (ls : lstore) (queue : rstr) : option rstr * lstore := lpop ls queue.

Definition tool_history_key : rstr := rs "cognitive:tool_history".

(** [CacheService::record_tool_execution]: [RPUSH] of the JSON, then
    [LTRIM -50 -1]. *)
Definition record_tool_execution (ls : lstore) (exec_json : rstr) : lstore :=
  let ls1 := rpush ls tool_history_key exec_json in
  lstore_set ls1 tool_history_key (redis_range (ls1 tool_history_key) (-50) (-1)).

Fixpoint filter_map {A B : Type} (f : A -> option B) (l : list A) : list B :=
  match l with
  | [] => []
  | x :: l' => match f x with
               | Some y => y :: filter_map f l'
               | None => filter_map f l'
               end
  end.

(** [CacheService::get_tool_history]: [LRANGE -count -1], then the items
    that parse ([filter_map(serde_json::from_str(..).ok())]). *)
Definition get_tool_history {A : Type} (from_json : rstr -> option A) (ls : lstore) (count : Z)
  : list A :=
  filter_map from_json (redis_range (ls tool_history_key) (- count) (-1)).

(** The last [n] elements of a list. *)
Definition lastn {A : Type} (n : nat) (l : list A) : list A := skipn (List.length l - n) l.

(* ------------------------------------------------------------------ *)
(** ** Embedding generation and memory storage ([vector.rs]) *)

(** Elements of the ["embedding"] array: numbers and everything else. *)
Inductive jelem :=
| JNum (x : Q)
| JNotNum.

(** What the [POST /api/embeddings] request comes back with: the [send()]
    failed, or a status (success or not) and, when the body is read, a body
    that does not parse ([None]) or parses with ([Some (Some arr)]) or
    without ([Some None]) an ["embedding"] array. *)
Inductive embed_response :=
| EmbSendErr (e : rstr)
| EmbStatus (success : bool) (body : option (option (list jelem))).

(** [vector::MemoryType] and its [Display]. *)
Inductive MemoryType := Conversation | Dream | Reflection | Fact | Emotion.

Definition memory_type_str (t : MemoryType) : rstr :=
  match t with
  | Conversation => rs "conversation"
  | Dream => rs "dream"
  | Reflection => rs "reflection"
  | Fact => rs "fact"
  | Emotion => rs "emotion"
  end.

(** [HashMap::insert] on a payload: replaces the value of an existing field,
    adds the field otherwise. *)
Fixpoint obj_insert (o : obj) (k : string) (v : jvalue) : obj :=
  match o with
  | [] => [(k, v)]
  | (k', v') :: o' => if String.eqb k k' then (k', v) :: o' else (k', v') :: obj_insert o' k v
  end.

(** The point [upsert] sends: id, vector, payload. *)
Record point := mkPoint { pt_id : rstr; pt_vector : list Z; pt_payload : obj }.

Section EmbeddingGeneration.

Variable sha256 : list Z -> list Z.

(** The [f32] bit patterns [VectorService::simple_embedding] produces
    (the hash fallback), and the
    [as_f64().map(|f| f as f32)] conversion of a JSON number (library
    floating-point code, left abstract). *)
Variable simple_embedding_f32 : rstr -> list Z.
Variable number_as_f32 : Q -> Z.

(** [VectorService::generate_embedding]. *)
Definition generate_embedding (text : rstr) (resp : embed_response) : result (list Z) rstr :=
  match resp with
  | EmbSendErr e => Err e
  | EmbStatus false _ => Ok (simple_embedding_f32 text)
  | EmbStatus true None => Err (rs "invalid JSON body")
  | EmbStatus true (Some None) => Ok (simple_embedding_f32 text)
  | EmbStatus true (Some (Some arr)) =>
      Ok (filter_map (fun e => match e with
                               | JNum x => Some (number_as_f32 x)
                               | JNotNum => None
                               end) arr)
  end.

(** [VectorService::generate_embedding_cached] at instant [now], on the
    store [st]: the result, the vector handed to the detached
    [tokio::spawn] task that calls [cache_embedding] (with its result
    ignored), and whether the embedding service was called; [None] is a
    panic of the caller. The call itself writes nothing: the spawned task
    runs at some later point, or fails, independently of the caller. *)
Definition generate_embedding_cached (st : store) (now : Z) (text : rstr) (resp : embed_response)
  : option (result (list Z) rstr * option (list Z) * bool) :=
  match get_cached_embedding sha256 st now text with
  | None => None
  | Some (Some cached) => Some (Ok cached, None, false)
  | Some None =>
      match generate_embedding text resp with
      | Err e => Some (Err e, None, true)
      | Ok emb => Some (Ok emb, Some emb, true)
      end
  end.

(** [vector::store_memory_cached]: the point handed to [upsert] (or the
    embedding error), and the store when the call returns (unchanged: the
    cache write is the detached task's); [timestamp] is
    [Utc::now().to_rfc3339()]. *)
Definition store_memory_cached (st : store) (now : Z) (timestamp : rstr)
  (id content : rstr) (memory_type : MemoryType) (metadata : obj) (resp : embed_response)
  : option (result point rstr * store) :=
  match generate_embedding_cached st now content resp with
  | None => None
  | Some (Err e, _, _) => Some (Err e, st)
  | Some (Ok emb, _, _) =>
      let payload := obj_insert (obj_insert (obj_insert metadata "content" (JStr content))
                                   "type" (JStr (memory_type_str memory_type)))
                       "timestamp" (JStr timestamp) in
      Some (Ok (mkPoint id emb payload), st)
  end.

End EmbeddingGeneration.

(* ------------------------------------------------------------------ *)
(** ** Perception and reflection ([systems.rs]) *)

(** [cache::CachedMentalState] (instants in nanoseconds). *)
Record CachedMentalState := mkCached {
  c_mood : Q;
  c_energy : Q;
  c_focus_level : Q;
  c_mood_label : rstr;
  c_is_dreaming : bool;
  c_last_active : Z;
  c_updated_at : Z
}.

(** The [mood_label] chain of [perception_system] (the literals are
    [f32]). *)
Definition mood_label (m : Q) : rstr :=
  if q_lt (f32_round (7 # 10)) m then rs "happy"
  else if q_lt (f32_round (1 # 2)) m then rs "content"
  else if q_lt (f32_round (3 # 10)) m then rs "thoughtful"
  else rs "melancholy".

(** [perception_system] at instant [now]: [cached] is what
    [get_mental_state] returned as [Ok(Some ..)]; the result is the agent's
    mental state and the cached state afterwards. *)
Definition perception_system (now : Z) (ms : MentalState) (cached : option CachedMentalState)
  : MentalState * option CachedMentalState :=
  let ms1 := match cached with
             | Some c => mkMentalState (c_mood c) (c_energy c) (c_is_dreaming c)
                           (last_active ms) (last_dream ms) (c_focus_level c)
             | None => ms
             end in
  let idle_seconds := num_seconds (now - last_active ms1) in
  if 60 <? idle_seconds then
    let ms2 := mkMentalState
                 (f32_add (mood ms1)
                    (f32_mul (f32_sub (f32_round (1 # 2)) (mood ms1)) (f32_round (1 # 1000))))
                 (Qmin (f32_add (energy ms1) (f32_round (1 # 1000))) 1) (is_dreaming ms1)
                 (last_active ms1) (last_dream ms1)
                 (Qmax (f32_sub (focus_level ms1) (f32_round (1 # 1000))) (f32_round (3 # 10))) in
    (ms2, Some (mkCached (mood ms2) (energy ms2) (focus_level ms2) (mood_label (mood ms2))
                  (is_dreaming ms2) (last_active ms2) now))
  else (ms1, cached).

(** The session summary of [handle_chat_stream]:
    [format!(Q..Q, &message[..message.len().min(200)],
    &full_response[..full_response.len().min(200)])] ([Q] the double
    quote); [None] is a panic of one of the two slices. *)
Definition exchange_summary (message full_response : rstr) : option rstr :=
  match str_slice_to message (Nat.min (str_len message) 200) with
  | None => None
  | Some m =>
      match str_slice_to full_response (Nat.min (str_len full_response) 200) with
      | None => None
      | Some r =>
          Some (rs "User asked about: " ++ m ++ rs ". Assistant responded regarding: " ++ r
                ++ rs ".")
      end
  end.

(** Writes of [reflection_system] outside the store. *)
Inductive reflection_effect :=
| ReflectionInfer                        (* llm.infer on the reflection prompt *)
| SaveJournal (content : rstr)           (* db::create_journal_entry *)
| IndexJournal (content : rstr)          (* meili_index_journal *)
| StoreReflectionSemantic (content : rstr) (* vector::store_memory_cached *)
| SaveDailyLog (content : rstr)          (* db::save_daily_log *)
| ArchiveJournal (content : rstr)        (* ../archive/journal/{today}.md *)
| ReflectionLogInfo
| ReflectionLogError.

Definition reflected_key (today : rstr) : rstr := rs "reflected_" ++ today.

(** [reflection_system]: [hour], [minute] and [today] come from
    [Local::now()], [now] is the store's clock; [history] is the result of
    [get_session_messages] and [gen] that of [llm.infer]. *)
Definition reflection_system (hour minute target_hour : Z) (today : rstr) (now : Z) (st : store)
  (history : result (list (rstr * rstr)) rstr) (gen : gen_outcome)
  : store * list reflection_effect :=
  if (hour =? target_hour) && (minute <? 2) then
    match cache_get st now (reflected_key today) with
    | Some _ => (st, [])
    | None =>
        match history with
        | Err _ => (st, [])
        | Ok [] => (st, [])
        | Ok (_ :: _) =>
            match gen with
            | GenOk r =>
                (cache_set st now (reflected_key today) (rs "true") 86400,
                 [ReflectionInfer; SaveJournal r; IndexJournal r; StoreReflectionSemantic r;
                  SaveDailyLog r; ArchiveJournal r; ReflectionLogInfo])
            | GenErr _ => (st, [ReflectionInfer; ReflectionLogError])
            end
        end
    end
  else (st, []).

(* ------------------------------------------------------------------ *)
(** ** Chat-response helpers ([handlers.rs]) *)

(** [char::is_whitespace], also the [\s] class of the [regex] crate: the
    Unicode [White_Space] property. *)
Definition is_whitespace (c : Z) : bool :=
  ((9 <=? c) && (c <=? 13)) || (c =? 32) || (c =? 133) || (c =? 160) || (c =? 5760)
  || ((8192 <=? c) && (c <=? 8202)) || (c =? 8232) || (c =? 8233) || (c =? 8239)
  || (c =? 8287) || (c =? 12288).

(** The literal [lit] at the start of [s]: the rest of [s]. *)
Fixpoint strip_prefix (lit s : rstr) : option rstr :=
  match lit, s with
  | [], _ => Some s
  | a :: lit', c :: s' => if a =? c then strip_prefix lit' s' else None
  | _ :: _, [] => None
  end.

(** [\s*] (greedy), also [str::trim_start]. *)
Fixpoint skip_ws (s : rstr) : rstr :=
  match s with
  | c :: s' => if is_whitespace c then skip_ws s' else s
  | [] => []
  end.

(** [str::trim]. *)
Definition trim (s : rstr) : rstr := rev (skip_ws (rev (skip_ws s))).

Definition quote : Z := 34.

(** The longest prefix without a double quote, and the rest. *)
Fixpoint span_non_quote (s : rstr) : rstr * rstr :=
  match s with
  | c :: s' => if c =? quote then ([], s)
               else let (a, b) := span_non_quote s' in (c :: a, b)
  | [] => ([], [])
  end.

(** The group [([^Q]+)] followed by [Q], where [Q] is the double quote: the
    class is greedy and cannot match [Q], so its only possible extent is the
    longest quote-free prefix. *)
Definition quoted_tail (s : rstr) : option (rstr * rstr) :=
  let (v, rest) := span_non_quote s in
  match v with
  | [] => None
  | _ => option_map (fun r => (v, r)) (strip_prefix [quote] rest)
  end.

(** The optional part [\s*,\s*name=Q([^Q]+)Q] ([Q] the double quote). *)
Definition name_group (s : rstr) : option (rstr * rstr) :=
  match strip_prefix (rs ",") (skip_ws s) with
  | Some s1 =>
      match strip_prefix (rs "name=" ++ [quote]) (skip_ws s1) with
      | Some s2 => quoted_tail s2
      | None => None
      end
  | None => None
  end.

(** A match of
    [\[IMAGE_GEN:\s*prompt=Q([^Q]+)Q(?:\s*,\s*name=Q([^Q]+)Q)?\]] ([Q] the
    double quote) starting at the beginning of [s]: the two groups and the text after the match.
    The optional group is tried first (greedy [?]), then skipped. *)
Definition image_gen_at (s : rstr) : option (rstr * option rstr * rstr) :=
  match strip_prefix (rs "[IMAGE_GEN:") s with
  | None => None
  | Some s1 =>
      match strip_prefix (rs "prompt=" ++ [quote]) (skip_ws s1) with
      | None => None
      | Some s2 =>
          match quoted_tail s2 with
          | None => None
          | Some (p, s3) =>
              let without_name := option_map (fun s5 => (p, None, s5)) (strip_prefix (rs "]") s3) in
              match name_group s3 with
              | Some (n, s4) =>
                  match strip_prefix (rs "]") s4 with
                  | Some s5 => Some (p, Some n, s5)
                  | None => without_name
                  end
              | None => without_name
              end
          end
      end
  end.

(** [captures_iter]: the leftmost match, then the search resumes after it
    ([fuel] bounds the number of steps; the length of the text suffices). *)
Fixpoint scan_image_gen (fuel : nat) (s : rstr) : list (rstr * option rstr) :=
  match fuel with
  | O => []
  | S fuel' =>
      match s with
      | [] => []
      | _ :: s' =>
          match image_gen_at s with
          | Some (p, n, rest) => (p, n) :: scan_image_gen fuel' rest
          | None => scan_image_gen fuel' s'
          end
      end
  end.

Definition is_empty (s : rstr) : bool :=
  match s with [] => true | _ => false end.

(** [extract_image_gen_requests]. *)
Definition extract_image_gen_requests (text : rstr) : list (rstr * option rstr) :=
  filter (fun '(p, _) => negb (is_empty p)) (scan_image_gen (List.length text) text).

(** [str::split_inclusive] on a character predicate: every piece ends with
    a matching character, except possibly the last; no empty piece. *)
Fixpoint split_inclusive (p : Z -> bool) (s : rstr) : list rstr :=
  match s with
  | [] => []
  | c :: s' =>
      if p c then [c] :: split_inclusive p s'
      else match split_inclusive p s' with
           | [] => [[c]]
           | x :: xs => (c :: x) :: xs
           end
  end.

(** ['.', '!', '?', '\n'] and [',', ';', ':']. *)
Definition is_sentence_end (c : Z) : bool := (c =? 46) || (c =? 33) || (c =? 63) || (c =? 10).
Definition is_clause_end (c : Z) : bool := (c =? 44) || (c =? 59) || (c =? 58).

(** The [chunks] and [current_chunk] of [chunk_text_for_tts]. *)
Definition tts_state := (list rstr * rstr)%type.

(** [if !current_chunk.is_empty() && current_chunk.len() + piece.len() > max_chars]
    push the trimmed chunk and start a new one. *)
Definition tts_flush (max_chars : nat) (st : tts_state) (piece : rstr) : tts_state :=
  let (chunks, cur) := st in
  if negb (is_empty cur) && Nat.ltb max_chars (str_len cur + str_len piece)
  then (chunks ++ [trim cur], [])
  else (chunks, cur).

(** One comma/semicolon/colon part of a long sentence. *)
Definition tts_part_step (max_chars : nat) (st : tts_state) (part : rstr) : tts_state :=
  let part_trimmed := trim part in
  let (chunks, cur) := tts_flush max_chars st part_trimmed in
  (chunks, cur ++ part_trimmed ++ [32]).

(** One sentence of the main loop. *)
Definition tts_sentence_step (max_chars : nat) (st : tts_state) (sentence : rstr) : tts_state :=
  let trimmed := trim sentence in
  if is_empty trimmed then st
  else
    let (chunks, cur) := tts_flush max_chars st trimmed in
    if Nat.ltb max_chars (str_len trimmed)
    then fold_left (tts_part_step max_chars) (split_inclusive is_clause_end trimmed) (chunks, cur)
    else (chunks, cur ++ trimmed ++ [32]).

(** [chunk_text_for_tts]. *)
Definition chunk_text_for_tts (text : rstr) (max_chars : nat) : list rstr :=
  if Nat.leb (str_len text) max_chars then [text]
  else
    let (chunks, cur) :=
      fold_left (tts_sentence_step max_chars) (split_inclusive is_sentence_end text) ([], []) in
    let chunks := if is_empty (trim cur) then chunks else chunks ++ [trim cur] in
    filter (fun c => negb (is_empty c)) chunks.

(** [u32::to_le_bytes]. *)
Definition u32_to_le_bytes (w : Z) : list Z :=
  [Z.land w 255; Z.land (Z.shiftr w 8) 255; Z.land (Z.shiftr w 16) 255;
   Z.land (Z.shiftr w 24) 255].

(** [u32::from_le_bytes] of four bytes of a list. *)
Definition u32_from_le (bs : list Z) : Z :=
  match bs with
  | [b0; b1; b2; b3] => b0 + 256 * b1 + 65536 * b2 + 16777216 * b3
  | _ => 0
  end.

Definition sum_lengths (l : list (list Z)) : nat :=
  fold_right (fun c acc => (List.length c + acc)%nat) 0%nat l.

(** 1000 ms of 24 kHz 16-bit mono silence. *)
Definition silence_len : nat := 48000.

(** The data of the chunks that are longer than a 44-byte header. *)
Definition pcm_chunks (audio_chunks : list (list Z)) : list (list Z) :=
  map (skipn 44) (filter (fun c => Nat.ltb 44 (List.length c)) audio_chunks).

(** [concatenate_wav_audio]; [as u32] keeps the low 32 bits. *)
Definition concatenate_wav_audio (audio_chunks : list (list Z)) : list Z :=
  match audio_chunks with
  | [] => []
  | first :: _ =>
      let silence_padding := repeat 0 silence_len in
      let pcms := pcm_chunks audio_chunks in
      let total_pcm_len := (List.length silence_padding + sum_lengths pcms)%nat in
      match pcms with
      | [] => first
      | _ :: _ =>
          let header :=
            if Nat.leb 44 (List.length first) then
              let h := firstn 44 first in
              firstn 4 h
                ++ u32_to_le_bytes ((Z.of_nat total_pcm_len + 36) mod 4294967296)
                ++ firstn 32 (skipn 8 h)
                ++ u32_to_le_bytes (Z.of_nat total_pcm_len mod 4294967296)
            else [] in
          header ++ silence_padding ++ List.concat pcms
      end
  end.

(** [dequeue_signal] called [n] times in a row. *)
Fixpoint dequeue_all (n : nat) (ls : lstore) (q : rstr) : list (option rstr) :=
  match n with
  | O => []
  | S n' => let (x, ls') := dequeue_signal ls q in x :: dequeue_all n' ls' q
  end.

Definition ten_topics : list rstr := map (fun n => [Z.of_nat n]) (seq 0 10).

(** A stand-in digest (the bytes [0..31]). *)
Definition sample_digest (_ : list Z) : list Z := map Z.of_nat (seq 0 32).

(** The tag format given in the doc comment of
    [extract_image_gen_requests], with or without a name. *)
Definition image_gen_tag (p : rstr) (n : option rstr) : rstr :=
  rs "[IMAGE_GEN: prompt=" ++ [quote] ++ p ++ [quote]
  ++ match n with Some v => rs ", name=" ++ [quote] ++ v ++ [quote] | None => [] end
  ++ rs "]".

(** Characters other than white space. *)
Definition nw (c : Z) : bool := negb (is_whitespace c).

(** The non-white-space text held by the chunker: pushed chunks, then the
    current one. *)
Definition tts_content (st : tts_state) : list Z :=
  filter nw (List.concat (fst st) ++ snd st).

(* ================================================================== *)
(** * Proofs *)

Lemma fold_opt_app {A : Type} (step : merge_state -> A -> option merge_state) l1 l2 st :
  fold_opt step (l1 ++ l2) st =
  match fold_opt step l1 st with
  | Some st' => fold_opt step l2 st'
  | None => None
  end.
Proof.
  revert st; induction l1 as [|x l1 IH]; intros st; simpl; [reflexivity|].
  destruct (step st x); [apply IH | reflexivity].
Qed.

Section MergeProofs.
Variable parse_rfc3339 : rstr -> option Z.
Variable now : Z.
Variable chat_id : rstr.

Lemma semantic_step_cand st r :
  semantic_step parse_rfc3339 now st r = fold_opt cand_step (semantic_cand parse_rfc3339 now r) st.
Proof.
  unfold semantic_step, semantic_cand.
  destruct (q_lt (sr_score r) score_gate); [reflexivity|].
  destruct (too_recent parse_rfc3339 now r); [reflexivity|]. simpl.
  destruct (get_str (sr_payload r) "content") as [c|]; [|reflexivity].
  simpl. unfold cand_step, truncate_cand; simpl.
  destruct (set_contains (seen st) (chars_take key_len c)); [reflexivity|].
  destruct (str_slice_to c _); reflexivity.
Qed.

Lemma lexical_step_cand st h :
  lexical_step st h = fold_opt cand_step (lexical_cand h) st.
Proof.
  unfold lexical_step, lexical_cand.
  destruct (get_str h "content") as [c|]; [|reflexivity].
  simpl. unfold cand_step, truncate_cand; simpl.
  destruct (set_contains (seen st) (chars_take key_len c)); [reflexivity|].
  destruct (str_slice_to c _); reflexivity.
Qed.

Lemma chat_step_cand st h :
  chat_step chat_id st h = fold_opt cand_step (chat_cand chat_id h) st.
Proof.
  unfold chat_step, chat_cand.
  destruct (match get_str h "id" with Some i => rstr_eqb i chat_id | None => false end);
    [reflexivity|].
  destruct (get_str h "messages_text") as [c|]; [|reflexivity].
  simpl. unfold cand_step, truncate_cand; simpl.
  destruct (set_contains (seen st) (chars_take key_len c)); [reflexivity|].
  destruct (str_slice_to c _); reflexivity.
Qed.

Lemma fold_flat_map {A : Type} (step : merge_state -> A -> option merge_state)
  (f : A -> list cand) :
  (forall st x, step st x = fold_opt cand_step (f x) st) ->
  forall l st, fold_opt step l st = fold_opt cand_step (flat_map f l) st.
Proof.
  intros Hstep l; induction l as [|x l IH]; intros st; simpl; [reflexivity|].
  rewrite fold_opt_app, <- Hstep.
  destruct (step st x); [apply IH | reflexivity].
Qed.

End MergeProofs.

(** The merge of candidates is the truncation of the deduplicated list. *)
Lemma fold_cand_dedup cs st :
  option_map parts (fold_opt cand_step cs st) =
  option_map (fun ps => parts st ++ ps) (map_opt truncate_cand (dedup_first (seen st) cs)).
Proof.
  revert st; induction cs as [|c cs IH]; intros st; simpl.
  - rewrite app_nil_r; reflexivity.
  - unfold cand_step.
    destruct (set_contains (seen st) (chars_take key_len (c_content c))); [apply IH|].
    simpl. destruct (truncate_cand c) as [p|]; [|reflexivity].
    rewrite IH; simpl.
    destruct (map_opt truncate_cand _); simpl; [|reflexivity].
    rewrite <- app_assoc; reflexivity.
Qed.

Lemma merge_parts_cands parse now chat_id sem lex chats :
  merge_parts parse now chat_id sem lex chats =
  option_map parts (fold_opt cand_step (all_cands parse now chat_id sem lex chats) (mkMS [] [])).
Proof.
  unfold merge_parts, all_cands.
  rewrite !fold_opt_app.
  rewrite (fold_flat_map _ _ (semantic_step_cand parse now)).
  destruct (fold_opt cand_step (flat_map (semantic_cand parse now) sem) _) as [st1|];
    [|reflexivity].
  rewrite fold_opt_app, (fold_flat_map _ _ lexical_step_cand).
  destruct (fold_opt cand_step (flat_map lexical_cand lex) st1) as [st2|]; [|reflexivity].
  rewrite (fold_flat_map _ _ (chat_step_cand chat_id)).
  destruct (fold_opt cand_step (flat_map (chat_cand chat_id) chats) st2); reflexivity.
Qed.

(** C1. The merge deduplicates candidates by the first 100 characters of
    their content: semantic matches (those passing the gates) come first,
    then lexical memory hits, then chat-transcript hits other than the
    current chat; of candidates with the same key only the earliest is kept.
    That is, the code's merge equals [spec_merge], which truncates the list
    [dedup_first [] (all_cands ..)].  In particular semantic [A(0.9), B(0.5)]
    and lexical [C, A] give [A, B, C], with A from the semantic leg. *)
Theorem merge_dedup_first_by_prefix :
  (forall parse now chat_id sem lex chats,
      merge_parts parse now chat_id sem lex chats = spec_merge parse now chat_id sem lex chats)
  /\ (forall parse now chat_id,
      merge_parts parse now chat_id
        [sem_hit mem_A (9 # 10); sem_hit mem_B (5 # 10)]
        [lex_hit mem_C; lex_hit mem_A] [] =
      Some [PSemantic (rs "user") mem_A; PSemantic (rs "user") mem_B;
            PLexical (rs "fact") (rs "pets") mem_C]).
Proof.
  split.
  - intros parse now chat_id sem lex chats.
    rewrite merge_parts_cands, fold_cand_dedup; simpl.
    unfold spec_merge.
    destruct (map_opt truncate_cand _); reflexivity.
  - intros parse now chat_id. vm_compute. reflexivity.
Qed.

Lemma rstr_eqb_true a b : rstr_eqb a b = true <-> a = b.
Proof. unfold rstr_eqb; destruct (list_eq_dec Z.eq_dec a b); split; congruence. Qed.

Lemma set_contains_app l1 l2 k :
  set_contains (l1 ++ l2) k = set_contains l1 k || set_contains l2 k.
Proof. unfold set_contains; apply existsb_app. Qed.

Lemma dedup_first_keeps S pre c post :
  set_contains (map cand_key pre ++ S) (cand_key c) = false ->
  In c (dedup_first S (pre ++ c :: post)).
Proof.
  revert S; induction pre as [|c' pre IH]; intros S H; simpl in *.
  - unfold cand_key in H; rewrite H; left; reflexivity.
  - unfold set_contains in H; simpl in H.
    apply orb_false_iff in H as [H0 H].
    destruct (set_contains S (chars_take key_len (c_content c'))) eqn:E.
    + apply IH. exact H.
    + right. apply IH.
      unfold set_contains; rewrite existsb_app in *; simpl.
      apply orb_false_iff in H as [H1 H2].
      unfold cand_key in *. rewrite H1, H0, H2; reflexivity.
Qed.

Lemma map_opt_in {A B : Type} (f : A -> option B) l ys x :
  map_opt f l = Some ys -> In x l -> exists y, f x = Some y /\ In y ys.
Proof.
  revert ys; induction l as [|a l IH]; intros ys Hm Hin; simpl in *; [contradiction|].
  destruct (f a) as [b|] eqn:Ef; [|discriminate].
  destruct (map_opt f l) as [ys'|] eqn:E; simpl in Hm; [|discriminate].
  injection Hm as <-.
  destruct Hin as [<-|Hin].
  - exists b; split; [assumption | left; reflexivity].
  - destruct (IH ys' eq_refl Hin) as [y [Hy Hy']].
    exists y; split; [assumption | right; assumption].
Qed.

Section GateProofs.
Variable parse_rfc3339 : rstr -> option Z.
Variable now : Z.
Variable chat_id : rstr.

(** A semantic result with no candidate leaves the merge unchanged. *)
Lemma semantic_skip_irrelevant sem1 r sem2 lex chats :
  semantic_cand parse_rfc3339 now r = [] ->
  merge_parts parse_rfc3339 now chat_id (sem1 ++ r :: sem2) lex chats =
  merge_parts parse_rfc3339 now chat_id (sem1 ++ sem2) lex chats.
Proof.
  intros H. rewrite !merge_parts_cands. unfold all_cands.
  rewrite !flat_map_app. simpl. rewrite H. reflexivity.
Qed.

(** A candidate whose key is new when it is reached ends up in the output. *)
Lemma cand_included pre c post ps :
  set_contains (map cand_key pre) (cand_key c) = false ->
  map_opt truncate_cand (dedup_first [] (pre ++ c :: post)) = Some ps ->
  exists p, truncate_cand c = Some p /\ In p ps.
Proof.
  intros Hk Hm. eapply map_opt_in; [exact Hm|].
  apply dedup_first_keeps. rewrite app_nil_r; exact Hk.
Qed.

Lemma semantic_included sem1 r sem2 lex chats role content ps :
  semantic_cand parse_rfc3339 now r = [mkCand content semantic_cap (PSemantic role)] ->
  set_contains (map cand_key (flat_map (semantic_cand parse_rfc3339 now) sem1))
    (chars_take key_len content) = false ->
  merge_parts parse_rfc3339 now chat_id (sem1 ++ r :: sem2) lex chats = Some ps ->
  exists t, str_slice_to content (Nat.min (str_len content) semantic_cap) = Some t
            /\ In (PSemantic role t) ps.
Proof.
  intros Hc Hk Hm.
  rewrite merge_parts_cands, fold_cand_dedup in Hm. simpl in Hm.
  destruct (map_opt truncate_cand _) as [ps'|] eqn:E; [|discriminate].
  simpl in Hm. injection Hm as ->.
  unfold all_cands in E. rewrite flat_map_app in E. simpl in E. rewrite Hc in E.
  simpl in E. rewrite <- app_assoc in E. simpl in E.
  destruct (cand_included _ (mkCand content semantic_cap (PSemantic role)) _ _ Hk E)
    as [p [Hp Hin]].
  unfold truncate_cand in Hp; simpl in Hp.
  destruct (str_slice_to content _) as [t|]; [|discriminate].
  simpl in Hp. injection Hp as <-. exists t; split; [reflexivity | exact Hin].
Qed.

Lemma lexical_included sem lex1 h lex2 chats content ps :
  get_str h "content" = Some content ->
  set_contains (map cand_key (flat_map (semantic_cand parse_rfc3339 now) sem
                              ++ flat_map lexical_cand lex1))
    (chars_take key_len content) = false ->
  merge_parts parse_rfc3339 now chat_id sem (lex1 ++ h :: lex2) chats = Some ps ->
  exists mt ti t, In (PLexical mt ti t) ps.
Proof.
  intros Hc Hk Hm.
  rewrite merge_parts_cands, fold_cand_dedup in Hm.
  destruct (map_opt truncate_cand _) as [ps'|] eqn:E; [|discriminate].
  simpl in Hm. injection Hm as ->.
  set (mt := match get_str h "memory_type" with Some s => s | None => rs "unknown" end) in *.
  set (ti := match get_str h "title" with Some s => s | None => [] end) in *.
  assert (Hcands : all_cands parse_rfc3339 now chat_id sem (lex1 ++ h :: lex2) chats =
    (flat_map (semantic_cand parse_rfc3339 now) sem ++ flat_map lexical_cand lex1)
    ++ mkCand content lexical_cap (PLexical mt ti)
       :: (flat_map lexical_cand lex2 ++ flat_map (chat_cand chat_id) chats)).
  { unfold all_cands. rewrite flat_map_app.
    change (flat_map lexical_cand (h :: lex2))
      with (lexical_cand h ++ flat_map lexical_cand lex2).
    unfold lexical_cand at 2. rewrite Hc. rewrite <- !app_assoc. reflexivity. }
  rewrite Hcands in E.
  eapply cand_included in E; [|exact Hk].
  destruct E as [p [Hp Hin]].
  unfold truncate_cand in Hp; simpl in Hp.
  destruct (str_slice_to content _) as [t|]; [|discriminate].
  simpl in Hp. injection Hp as <-. exists mt, ti, t; exact Hin.
Qed.

End GateProofs.

Lemma q_lt_true x y : q_lt x y = true <-> (x < y)%Q.
Proof.
  unfold q_lt. rewrite negb_true_iff. split; intros H.
  - apply Qnot_le_lt. intros Hle. apply Qle_bool_iff in Hle. congruence.
  - destruct (Qle_bool y x) eqn:E; [|reflexivity].
    apply Qle_bool_iff in E. exfalso. apply (Qlt_not_le x y); assumption.
Qed.

Lemma q_lt_false x y : (y <= x)%Q -> q_lt x y = false.
Proof.
  intros H. destruct (q_lt x y) eqn:E; [|reflexivity].
  apply q_lt_true in E. exfalso. apply (Qlt_not_le x y); assumption.
Qed.

Section GateTheorems.
Variable parse_rfc3339 : rstr -> option Z.
Variable now : Z.
Variable chat_id : rstr.

(** A result that passes both gates and has content is kept when its key
    is new. *)
Lemma semantic_passing_included sem1 r sem2 lex chats content ps :
  (score_gate <= sr_score r)%Q ->
  too_recent parse_rfc3339 now r = false ->
  get_str (sr_payload r) "content" = Some content ->
  set_contains (map cand_key (flat_map (semantic_cand parse_rfc3339 now) sem1))
    (chars_take key_len content) = false ->
  merge_parts parse_rfc3339 now chat_id (sem1 ++ r :: sem2) lex chats = Some ps ->
  exists role t, str_slice_to content (Nat.min (str_len content) semantic_cap) = Some t
                 /\ In (PSemantic role t) ps.
Proof.
  intros Hs Hr Hc Hk Hm.
  eexists. eapply semantic_included; [|exact Hk|exact Hm].
  unfold semantic_cand. rewrite (q_lt_false _ _ Hs), Hr. simpl. rewrite Hc. reflexivity.
Qed.

Lemma num_seconds_lt_60 d : d < 60 * 1000000000 -> num_seconds d < 60.
Proof.
  intros H. unfold num_seconds.
  destruct (Z.le_gt_cases 0 d) as [Hd|Hd].
  - rewrite Z.quot_div_nonneg by lia. apply Z.div_lt_upper_bound; lia.
  - assert (Z.quot d 1000000000 <= 0); [|lia].
    rewrite <- (Z.opp_involutive d), Z.quot_opp_l by lia.
    assert (0 <= Z.quot (- d) 1000000000) by (apply Z.quot_pos; lia). lia.
Qed.

End GateTheorems.

(** C2. The score gate [r.score < 0.45] is boundary-inclusive and applies
    to the semantic leg only. Both sides are [f32]: the gate is the binary32
    value of 0.45 ([score_gate], that is [f32_round (45 # 100)]), which is
    the value a score of 0.45 has;
    it lies on the binary32 grid of [1/4, 1/2) (spacing 2^-25), within half
    a spacing of 0.45, and every grid value below 0.45 other than it is
    below it. A semantic result scoring below the gate has no effect on the
    merged output; one scoring exactly the gate that passes the recency
    check, has content and a new key is in the output; a lexical hit with
    content and a new key is in the output whatever else it carries. *)
Theorem semantic_score_gate_inclusive :
  ((score_gate == 15099494 # 33554432)%Q
   /\ ((45 # 100) - (1 # 67108864) <= score_gate <= 45 # 100)%Q
   /\ (forall k : Z, (k # 33554432 < 45 # 100)%Q -> (k # 33554432 <= score_gate)%Q))
  /\ (forall parse now chat_id sem1 r sem2 lex chats,
     (sr_score r < score_gate)%Q ->
     merge_parts parse now chat_id (sem1 ++ r :: sem2) lex chats =
     merge_parts parse now chat_id (sem1 ++ sem2) lex chats)
  /\ (forall parse now chat_id sem1 r sem2 lex chats content ps,
     (sr_score r == score_gate)%Q ->
     too_recent parse now r = false ->
     get_str (sr_payload r) "content" = Some content ->
     set_contains (map cand_key (flat_map (semantic_cand parse now) sem1))
       (chars_take key_len content) = false ->
     merge_parts parse now chat_id (sem1 ++ r :: sem2) lex chats = Some ps ->
     exists role t, str_slice_to content (Nat.min (str_len content) semantic_cap) = Some t
                    /\ In (PSemantic role t) ps)
  /\ (forall parse now chat_id sem lex1 h lex2 chats content ps,
     get_str h "content" = Some content ->
     set_contains (map cand_key (flat_map (semantic_cand parse now) sem
                                 ++ flat_map lexical_cand lex1))
       (chars_take key_len content) = false ->
     merge_parts parse now chat_id sem (lex1 ++ h :: lex2) chats = Some ps ->
     exists mt ti t, In (PLexical mt ti t) ps).
Proof.
  split; [|split; [|split]].
  - split; [reflexivity|split; [split; vm_compute; discriminate|]].
    intros k Hk. unfold Qlt, Qle in *. simpl in *. lia.
  - intros parse now chat_id sem1 r sem2 lex chats Hs.
    apply semantic_skip_irrelevant.
    unfold semantic_cand. apply q_lt_true in Hs. rewrite Hs. reflexivity.
  - intros parse now chat_id sem1 r sem2 lex chats content ps Hs.
    apply semantic_passing_included. rewrite Hs. apply Qle_refl.
  - intros parse now chat_id. apply lexical_included.
Qed.

(** C3. Echo avoidance: a semantic result whose RFC3339 timestamp is less
    than 60 seconds before [now] (also one in the future) has no effect on
    the merged output; one whose timestamp is 120 seconds before [now] and
    whose score is at least the gate ([0.45] as [f32]), with content and a
    new key, is in it. *)
Theorem semantic_echo_avoidance :
  (forall parse now chat_id sem1 r sem2 lex chats ts mem_time,
     get_str (sr_payload r) "timestamp" = Some ts ->
     parse ts = Some mem_time ->
     now - mem_time < 60 * 1000000000 ->
     merge_parts parse now chat_id (sem1 ++ r :: sem2) lex chats =
     merge_parts parse now chat_id (sem1 ++ sem2) lex chats)
  /\ (forall parse now chat_id sem1 r sem2 lex chats ts mem_time content ps,
     get_str (sr_payload r) "timestamp" = Some ts ->
     parse ts = Some mem_time ->
     now - mem_time = 120 * 1000000000 ->
     (score_gate <= sr_score r)%Q ->
     get_str (sr_payload r) "content" = Some content ->
     set_contains (map cand_key (flat_map (semantic_cand parse now) sem1))
       (chars_take key_len content) = false ->
     merge_parts parse now chat_id (sem1 ++ r :: sem2) lex chats = Some ps ->
     exists role t, str_slice_to content (Nat.min (str_len content) semantic_cap) = Some t
                    /\ In (PSemantic role t) ps).
Proof.
  split.
  - intros parse now chat_id sem1 r sem2 lex chats ts mem_time Hts Hp Hage.
    apply semantic_skip_irrelevant.
    unfold semantic_cand, too_recent. rewrite Hts, Hp.
    apply num_seconds_lt_60, Z.ltb_lt in Hage. rewrite Hage, orb_true_r. reflexivity.
  - intros parse now chat_id sem1 r sem2 lex chats ts mem_time content ps Hts Hp Hage Hs.
    apply semantic_passing_included; [exact Hs|].
    unfold too_recent. rewrite Hts, Hp, Hage. reflexivity.
Qed.

(** C10. A semantic result with no ["timestamp"] string, or one that does
    not parse as RFC3339, skips the recency check: it is never too recent,
    and with a score of at least the gate ([0.45] as [f32]), content and a
    new key it is in the output whatever [now] is. *)
Theorem semantic_missing_timestamp_kept :
  forall parse now chat_id sem1 r sem2 lex chats content ps,
    (get_str (sr_payload r) "timestamp" = None
     \/ exists ts, get_str (sr_payload r) "timestamp" = Some ts /\ parse ts = None) ->
    too_recent parse now r = false
    /\ ((score_gate <= sr_score r)%Q ->
        get_str (sr_payload r) "content" = Some content ->
        set_contains (map cand_key (flat_map (semantic_cand parse now) sem1))
          (chars_take key_len content) = false ->
        merge_parts parse now chat_id (sem1 ++ r :: sem2) lex chats = Some ps ->
        exists role t, str_slice_to content (Nat.min (str_len content) semantic_cap) = Some t
                       /\ In (PSemantic role t) ps).
Proof.
  intros parse now chat_id sem1 r sem2 lex chats content ps Hts.
  assert (Hr : too_recent parse now r = false).
  { unfold too_recent.
    destruct Hts as [Hn | [ts [Hs Hp]]]; [rewrite Hn | rewrite Hs, Hp]; reflexivity. }
  split; [exact Hr|].
  intros Hs. apply semantic_passing_included; assumption.
Qed.

Lemma semantic_score_gate_inclusive_witness :
  exists role t, str_slice_to mem_A (Nat.min (str_len mem_A) semantic_cap) = Some t
                 /\ In (PSemantic role t) [PSemantic (rs "user") mem_A].
Proof.
  apply (proj1 (proj2 (proj2 semantic_score_gate_inclusive)) (fun _ => None) 0 []
           [] (sem_hit mem_A (7549747 # 16777216)) [] [] [] mem_A [PSemantic (rs "user") mem_A]);
    vm_compute; reflexivity.
Defined.

(** The spec's scenario: a timestamp 10 seconds before [now] is dropped. *)
Lemma semantic_echo_avoidance_witness :
  merge_parts (fun _ => Some 0) (10 * 1000000000) []
    ([] ++ [sem_hit_at mem_A (9 # 10) (rs "2026-10-18T00:00:00Z")]) [] [] =
  merge_parts (fun _ => Some 0) (10 * 1000000000) [] ([] ++ []) [] [].
Proof.
  apply (proj1 semantic_echo_avoidance (fun _ => Some 0) (10 * 1000000000) []
           [] (sem_hit_at mem_A (9 # 10) (rs "2026-10-18T00:00:00Z")) [] [] []
           (rs "2026-10-18T00:00:00Z") 0); vm_compute; reflexivity.
Defined.

Lemma semantic_missing_timestamp_kept_witness :
  too_recent (fun _ => None) 0 (sem_hit mem_A (9 # 10)) = false
  /\ exists role t, str_slice_to mem_A (Nat.min (str_len mem_A) semantic_cap) = Some t
                    /\ In (PSemantic role t) [PSemantic (rs "user") mem_A].
Proof.
  destruct (semantic_missing_timestamp_kept (fun _ => None) 0 [] [] (sem_hit mem_A (9 # 10))
              [] [] [] mem_A [PSemantic (rs "user") mem_A]) as [H1 H2];
    [left; reflexivity|].
  split; [exact H1|]. apply H2; vm_compute; try reflexivity. discriminate.
Defined.

(** C4 (as stated, refuted). An empty context does not mean that every leg
    returned nothing: a semantic result below the score gate is dropped and
    the context is empty although the semantic leg returned it. *)
Lemma hybrid_empty_context_with_results :
  hybrid_memory_context (fun _ => None) 0 [] (Ok [sem_hit mem_A (1 # 10)]) SendErr SendErr
    = Some []
  /\ [sem_hit mem_A (1 # 10)] <> [].
Proof. split; [vm_compute; reflexivity | discriminate]. Qed.

(** C4 (amended). No leg failure reaches the caller: a failed semantic leg
    gives the same context as one returning no results; a failed or
    malformed Meilisearch response gives no hits; when every leg yields
    nothing the context is empty. *)
Theorem hybrid_leg_failures_absorbed :
  (forall parse now chat_id e lex chats,
     hybrid_memory_context parse now chat_id (Err e) lex chats =
     hybrid_memory_context parse now chat_id (Ok []) lex chats)
  /\ (meili_search_memories SendErr = [] /\ meili_search_memories (Resp None) = []
      /\ meili_search_memories (Resp (Some None)) = []
      /\ meili_search_chats_for_rag SendErr = [] /\ meili_search_chats_for_rag (Resp None) = []
      /\ meili_search_chats_for_rag (Resp (Some None)) = [])
  /\ (forall parse now chat_id sem lex chats,
     (exists e, sem = Err e) \/ sem = Ok [] ->
     meili_search_memories lex = [] ->
     meili_search_chats_for_rag chats = [] ->
     hybrid_memory_context parse now chat_id sem lex chats = Some []).
Proof.
  split; [|split].
  - intros; reflexivity.
  - repeat split.
  - intros parse now chat_id sem lex chats Hs Hl Hc.
    unfold hybrid_memory_context. rewrite Hl, Hc.
    destruct Hs as [[e ->] | ->]; reflexivity.
Qed.

Lemma hybrid_leg_failures_absorbed_witness :
  hybrid_memory_context (fun _ => None) 0 [] (Err (rs "qdrant down")) SendErr (Resp None)
    = Some [].
Proof.
  apply (proj2 (proj2 hybrid_leg_failures_absorbed)); [left; eexists; reflexivity | | ];
    reflexivity.
Defined.

(** C5 (code bug). The truncation [&content[..content.len().min(400)]]
    counts bytes, not characters: a content of ["a"] and 400 times U+00E9
    makes byte 400 fall inside a character and the slice panics; 300 times
    U+00E9 (600 bytes) is cut to 200 characters. *)
Theorem semantic_truncation_counts_bytes :
  (forall parse now chat_id,
     merge_parts parse now chat_id [sem_hit content_mb_401 (9 # 10)] [] [] = None)
  /\ (forall parse now chat_id,
     merge_parts parse now chat_id [sem_hit (repeat 233 300) (9 # 10)] [] [] =
     Some [PSemantic (rs "user") (repeat 233 200)]).
Proof. split; intros; vm_compute; reflexivity. Qed.

(* ------------------------------------------------------------------ *)
(** ** Embedding cache proofs *)

Lemma b64_char_value_all :
  forallb (fun n => match b64_value (b64_char (Z.of_nat n)) with
                    | Some m => (m =? Z.of_nat n) && negb (b64_char (Z.of_nat n) =? b64_pad)
                    | None => false
                    end) (seq 0 64) = true.
Proof. vm_compute. reflexivity. Qed.

Lemma b64_char_value n :
  0 <= n < 64 -> b64_value (b64_char n) = Some n /\ (b64_char n =? b64_pad) = false.
Proof.
  intros Hn.
  pose proof b64_char_value_all as H.
  rewrite forallb_forall in H.
  assert (Hin : In (Z.to_nat n) (seq 0 64)) by (apply in_seq; lia).
  specialize (H _ Hin). rewrite Z2Nat.id in H by lia.
  destruct (b64_value (b64_char n)) as [m|]; [|discriminate].
  apply andb_true_iff in H as [H1 H2].
  apply Z.eqb_eq in H1; subst m. apply negb_true_iff in H2. split; [reflexivity | exact H2].
Qed.

Lemma b64_decode_encode bs :
  Forall is_byte bs -> b64_decode (b64_encode bs) = Some bs.
Proof.
  remember (List.length bs) as n eqn:Hn. revert bs Hn.
  induction n as [n IH] using lt_wf_ind. intros bs Hn Hb.
  destruct bs as [|a [|b [|c rest]]].
  - reflexivity.
  - inversion Hb as [|? ? Ha _]; subst. unfold is_byte in Ha.
    simpl b64_encode. unfold sextets.
    remember (group3 a 0 0) as g eqn:Hg. unfold group3 in Hg.
    destruct (b64_char_value (g / 262144)) as [E1 _]; [Z.div_mod_to_equations; lia|].
    destruct (b64_char_value (g / 4096 mod 64)) as [E2 P2]; [Z.div_mod_to_equations; lia|].
    simpl. rewrite E1, E2. simpl.
    replace (g / 4096 mod 64 mod 16) with 0 by (Z.div_mod_to_equations; lia).
    simpl. f_equal. f_equal. unfold ungroup. Z.div_mod_to_equations; lia.
  - inversion Hb as [|? ? Ha Hb']; subst. inversion Hb' as [|? ? Hb2 _]; subst.
    unfold is_byte in *.
    simpl b64_encode. unfold sextets.
    remember (group3 a b 0) as g eqn:Hg. unfold group3 in Hg.
    destruct (b64_char_value (g / 262144)) as [E1 _]; [Z.div_mod_to_equations; lia|].
    destruct (b64_char_value (g / 4096 mod 64)) as [E2 _]; [Z.div_mod_to_equations; lia|].
    destruct (b64_char_value (g / 64 mod 64)) as [E3 P3]; [Z.div_mod_to_equations; lia|].
    simpl. rewrite E1, E2, P3. simpl. rewrite E3.
    replace (g / 64 mod 64 mod 4) with 0 by (Z.div_mod_to_equations; lia).
    simpl. unfold ungroup.
    f_equal. f_equal; [|f_equal]; Z.div_mod_to_equations; lia.
  - inversion Hb as [|? ? Ha Hb']; subst. inversion Hb' as [|? ? Hb2 Hc']; subst.
    inversion Hc' as [|? ? Hc3 Hr]; subst. unfold is_byte in *.
    simpl b64_encode. unfold sextets.
    remember (group3 a b c) as g eqn:Hg. unfold group3 in Hg.
    destruct (b64_char_value (g / 262144)) as [E1 _]; [Z.div_mod_to_equations; lia|].
    destruct (b64_char_value (g / 4096 mod 64)) as [E2 _]; [Z.div_mod_to_equations; lia|].
    destruct (b64_char_value (g / 64 mod 64)) as [E3 P3]; [Z.div_mod_to_equations; lia|].
    destruct (b64_char_value (g mod 64)) as [E4 P4]; [Z.div_mod_to_equations; lia|].
    simpl. rewrite E1, E2, P3, P4. simpl. rewrite E3, E4.
    rewrite (IH (List.length rest)); [| simpl; lia | reflexivity | exact Hr].
    simpl. unfold ungroup.
    f_equal. f_equal; [|f_equal; [|f_equal]]; Z.div_mod_to_equations; lia.
Qed.

Lemma land_255 x : Z.land x 255 = x mod 256.
Proof. change 255 with (Z.ones 8). rewrite Z.land_ones by lia. reflexivity. Qed.

Lemma f32_le_bytes_spec w :
  f32_to_le_bytes w = [w mod 256; (w / 256) mod 256; (w / 65536) mod 256;
                       (w / 16777216) mod 256].
Proof.
  unfold f32_to_le_bytes. rewrite !land_255, !Z.shiftr_div_pow2 by lia. reflexivity.
Qed.

Lemma f32_bytes_roundtrip w :
  is_f32_bits w ->
  f32_from_le_bytes (w mod 256) ((w / 256) mod 256) ((w / 65536) mod 256)
    ((w / 16777216) mod 256) = w.
Proof. unfold is_f32_bits, f32_from_le_bytes; intros H. Z.div_mod_to_equations; lia. Qed.

Lemma f32_bytes_are_bytes v :
  Forall is_byte (flat_map f32_to_le_bytes v).
Proof.
  induction v as [|w v IH]; [constructor|].
  change (flat_map f32_to_le_bytes (w :: v)) with (f32_to_le_bytes w ++ flat_map f32_to_le_bytes v).
  rewrite f32_le_bytes_spec. unfold is_byte.
  repeat constructor; try (apply Z.mod_pos_bound; lia); exact IH.
Qed.

Lemma decode_f32s v :
  Forall is_f32_bits v ->
  map (fun '(b0, b1, b2, b3) => f32_from_le_bytes b0 b1 b2 b3)
    (chunks_exact4 (flat_map f32_to_le_bytes v)) = v.
Proof.
  induction 1 as [|w v Hw Hv IH]; [reflexivity|].
  change (flat_map f32_to_le_bytes (w :: v)) with (f32_to_le_bytes w ++ flat_map f32_to_le_bytes v).
  rewrite f32_le_bytes_spec. simpl.
  rewrite f32_bytes_roundtrip by exact Hw. f_equal. exact IH.
Qed.

Lemma cache_get_set st now k v ttl now' :
  now' < now + ttl -> cache_get (cache_set st now k v ttl) now' k = Some v.
Proof.
  intros H. unfold cache_get, cache_set.
  replace (rstr_eqb k k) with true by (symmetry; apply rstr_eqb_true; reflexivity).
  apply Z.ltb_lt in H. rewrite H. reflexivity.
Qed.

(** C7. Embedding cache round trip: after [cache_embedding t v] stored
    the vector, [get_cached_embedding t] at any instant before the 7-day
    expiry returns [Some v], bit for bit. *)
Theorem embedding_cache_roundtrip :
  forall sha256 st now text v st' now',
    Forall is_f32_bits v ->
    cache_embedding sha256 st now text v = Some st' ->
    now' < now + embedding_ttl ->
    get_cached_embedding sha256 st' now' text = Some (Some v).
Proof.
  intros sha256 st now text v st' now' Hv Hc Ht.
  unfold cache_embedding in Hc. unfold get_cached_embedding.
  destruct (embedding_key sha256 text) as [key|]; [|discriminate].
  injection Hc as <-.
  rewrite cache_get_set by exact Ht.
  rewrite b64_decode_encode by apply f32_bytes_are_bytes.
  rewrite decode_f32s by exact Hv. reflexivity.
Qed.

Lemma hex_encode_firstn n bs :
  firstn (2 * n) (hex_encode bs) = hex_encode (firstn n bs).
Proof.
  revert bs; induction n as [|n IH]; intros bs; [reflexivity|].
  destruct bs as [|b bs]; [reflexivity|].
  replace (2 * S n)%nat with (S (S (2 * n))) by lia.
  simpl. f_equal. f_equal. apply IH.
Qed.

Lemma hex_encode_length bs : List.length (hex_encode bs) = (2 * List.length bs)%nat.
Proof. induction bs as [|b bs IH]; simpl; [reflexivity|]. rewrite IH. lia. Qed.

Lemma hex_digit_lower n : 0 <= n < 16 -> is_lower_hex (hex_digit n).
Proof. unfold hex_digit, is_lower_hex; intros H. destruct (n <? 10) eqn:E;
  [apply Z.ltb_lt in E | apply Z.ltb_ge in E]; lia. Qed.

Lemma hex_encode_lower bs : Forall is_byte bs -> Forall is_lower_hex (hex_encode bs).
Proof.
  induction 1 as [|b bs Hb _ IH]; simpl; [constructor|].
  unfold is_byte in Hb.
  constructor; [|constructor; [|exact IH]]; apply hex_digit_lower.
  - rewrite Z.shiftr_div_pow2 by lia. Z.div_mod_to_equations; lia.
  - change 15 with (Z.ones 4). rewrite Z.land_ones by lia. apply Z.mod_pos_bound; lia.
Qed.

Lemma slice_ascii s n :
  Forall (fun c => c < 128) s -> (n <= List.length s)%nat -> str_slice_to s n = Some (firstn n s).
Proof.
  revert n; induction s as [|c s IH]; intros n Ha Hn.
  - destruct n; [reflexivity | simpl in Hn; lia].
  - destruct n as [|n]; [reflexivity|].
    inversion Ha as [|? ? Hc Hs]; subst.
    simpl. unfold utf8_width. replace (c <? 128) with true by (symmetry; apply Z.ltb_lt; exact Hc).
    simpl. rewrite Nat.sub_0_r, IH by (simpl in Hn; lia + exact Hs). reflexivity.
Qed.

(** C6. The embedding cache key is ["emb:"] followed by the lowercase hex
    encoding of the first 8 bytes of the SHA-256 digest of the UTF-8 bytes
    of the text: exactly 16 hex characters.  It is a function of those
    bytes alone, so repeated calls (or texts with the same bytes) give the
    same key. *)
Theorem embedding_key_sha256_hex16 :
  forall sha256 : list Z -> list Z,
    (forall bs, List.length (sha256 bs) = 32%nat /\ Forall is_byte (sha256 bs)) ->
    (forall text, exists suffix,
        embedding_key sha256 text = Some (rs "emb:" ++ suffix)
        /\ suffix = hex_encode (firstn 8 (sha256 (utf8_bytes text)))
        /\ List.length suffix = 16%nat
        /\ Forall is_lower_hex suffix)
    /\ (forall t1 t2, utf8_bytes t1 = utf8_bytes t2 ->
        embedding_key sha256 t1 = embedding_key sha256 t2).
Proof.
  intros sha256 Hsha. split.
  - intros text.
    destruct (Hsha (utf8_bytes text)) as [Hlen Hbytes].
    set (d := sha256 (utf8_bytes text)) in *.
    exists (hex_encode (firstn 8 d)).
    assert (Hlow : Forall is_lower_hex (hex_encode d)) by (apply hex_encode_lower; exact Hbytes).
    split; [|split; [reflexivity|split]].
    + unfold embedding_key. fold d.
      rewrite slice_ascii.
      * change 16%nat with (2 * 8)%nat. rewrite hex_encode_firstn. reflexivity.
      * eapply Forall_impl; [|exact Hlow]. unfold is_lower_hex; intros c Hc; lia.
      * rewrite hex_encode_length, Hlen. lia.
    + rewrite hex_encode_length, length_firstn, Hlen. reflexivity.
    + change 8%nat with (Nat.div (2 * 8) 2).
      rewrite <- hex_encode_firstn. simpl Nat.div.
      rewrite <- (firstn_skipn 16 (hex_encode d)) in Hlow.
      apply Forall_app in Hlow as [Hl _]. exact Hl.
  - intros t1 t2 H. unfold embedding_key. rewrite H. reflexivity.
Qed.

(** Evaluated on a stand-in digest (the bytes [0..31]). *)
Lemma embedding_key_sha256_hex16_witness :
  embedding_key (fun _ => map Z.of_nat (seq 0 32)) (rs "hello")
  = Some (rs "emb:0001020304050607").
Proof.
  destruct (proj1 (embedding_key_sha256_hex16 (fun _ => map Z.of_nat (seq 0 32))
                     ltac:(intros; split; [reflexivity | vm_compute; repeat constructor; discriminate]))
              (rs "hello")) as [suffix [H [Hs _]]].
  rewrite H, Hs. reflexivity.
Defined.

Lemma embedding_cache_roundtrip_witness :
  get_cached_embedding (fun _ => map Z.of_nat (seq 0 32))
    (cache_set (fun _ => None) 1000 (rs "emb:0001020304050607")
       (b64_encode (flat_map f32_to_le_bytes [1065353216; 3212836864; 2143289344]))
       embedding_ttl)
    5000 (rs "hello")
  = Some (Some [1065353216; 3212836864; 2143289344]).
Proof.
  apply (embedding_cache_roundtrip (fun _ => map Z.of_nat (seq 0 32)) (fun _ => None) 1000).
  - repeat constructor; unfold is_f32_bits; lia.
  - vm_compute. reflexivity.
  - vm_compute. reflexivity.
Defined.

(* ------------------------------------------------------------------ *)
(** ** Dreaming proofs *)

(** C8. With a 7-hour cooldown, the idle threshold exceeded and no dream in
    progress, the dreaming step does not activate when the last dream was 6
    hours ago, activates when it was 8 hours ago, and activates when there
    was none. *)
Theorem dream_cooldown_gate :
  forall env now cfg ms,
    dream_cooldown_hours env = 7 ->
    dream_threshold_seconds cfg < as_u64 (num_seconds (now - last_active ms)) ->
    is_dreaming ms = false ->
    (last_dream ms = Some (now - 6 * hour_ns) -> dream_gate now env cfg ms = false)
    /\ (last_dream ms = Some (now - 8 * hour_ns) -> dream_gate now env cfg ms = true)
    /\ (last_dream ms = None -> dream_gate now env cfg ms = true).
Proof.
  intros env now cfg ms Hc Hidle Hd.
  apply Z.ltb_lt in Hidle.
  unfold dream_gate. rewrite Hc, Hidle, Hd.
  split; [|split]; intros Hl; rewrite Hl; [| |reflexivity].
  - replace (now - (now - 6 * hour_ns)) with (6 * hour_ns) by ring. reflexivity.
  - replace (now - (now - 8 * hour_ns)) with (8 * hour_ns) by ring. reflexivity.
Qed.

Lemma dream_cooldown_gate_witness :
  dream_gate 100000000000000 None (mkAgentConfig 300)
    (mkMentalState (1 # 2) (7 # 10) false (100000000000000 - hour_ns)
       (Some (100000000000000 - 6 * hour_ns)) (1 # 2)) = false.
Proof.
  apply (dream_cooldown_gate None 100000000000000 (mkAgentConfig 300)
           (mkMentalState (1 # 2) (7 # 10) false (100000000000000 - hour_ns)
              (Some (100000000000000 - 6 * hour_ns)) (1 # 2)));
    vm_compute; reflexivity.
Defined.

(** C9. Whenever the dreaming step activates, whether the dream generation
    succeeds or fails, it ends with [is_dreaming] false, [last_dream] set to
    the current instant and [last_active] reset. *)
Theorem dreaming_returns_awake :
  forall now t_dream t_active env cfg ms gen,
    dream_gate now env cfg ms = true ->
    let ms' := fst (dreaming_system now t_dream t_active env cfg ms gen) in
    is_dreaming ms' = false /\ last_dream ms' = Some t_dream /\ last_active ms' = t_active.
Proof.
  intros now t_dream t_active env cfg ms gen Hg.
  unfold dreaming_system. rewrite Hg.
  destruct gen; simpl; repeat split.
Qed.

Lemma dreaming_returns_awake_witness :
  is_dreaming (fst (dreaming_system 100000000000000 100000000000001 100000000000002 None
                      (mkAgentConfig 300)
                      (mkMentalState (1 # 2) (7 # 10) false (100000000000000 - hour_ns) None (1 # 2))
                      (GenErr (rs "connection refused")))) = false.
Proof.
  apply (dreaming_returns_awake 100000000000000 100000000000001 100000000000002 None
           (mkAgentConfig 300)
           (mkMentalState (1 # 2) (7 # 10) false (100000000000000 - hour_ns) None (1 # 2))
           (GenErr (rs "connection refused"))).
  vm_compute. reflexivity.
Defined.

(* ------------------------------------------------------------------ *)
(** ** Session context proofs *)

Lemma set_contains_In l t : set_contains l t = true <-> In t l.
Proof.
  unfold set_contains. rewrite existsb_exists. split.
  - intros [x [Hx He]]. apply rstr_eqb_true in He. subst x. exact Hx.
  - intros H. exists t. split; [exact H | apply rstr_eqb_true; reflexivity].
Qed.

Lemma NoDup_snoc {A : Type} (l : list A) x : NoDup l -> ~ In x l -> NoDup (l ++ [x]).
Proof.
  induction l as [|a l IH]; intros Hl Hx; simpl.
  - constructor; [intros [] | constructor].
  - inversion Hl as [|? ? Ha Hl']; subst. constructor.
    + intros Hin. apply in_app_or in Hin as [Hin|[Hin|[]]]; [contradiction|].
      subst. apply Hx. left; reflexivity.
    + apply IH; [exact Hl'|]. intros Hin. apply Hx. right; exact Hin.
Qed.

Lemma push_new_topics_nodup recent topics :
  NoDup recent -> NoDup (push_new_topics recent topics).
Proof.
  revert recent; induction topics as [|t ts IH]; intros recent Hr; simpl; [exact Hr|].
  apply IH. destruct (set_contains recent t) eqn:E; [exact Hr|].
  apply NoDup_snoc; [exact Hr|]. intros Hin. apply set_contains_In in Hin. congruence.
Qed.

Lemma push_new_topics_extends recent topics :
  exists added, push_new_topics recent topics = recent ++ added
    /\ (forall u, In u topics -> In u (recent ++ added)).
Proof.
  revert recent; induction topics as [|t ts IH]; intros recent; simpl.
  - exists []. rewrite app_nil_r. split; [reflexivity | intros u []].
  - destruct (set_contains recent t) eqn:E.
    + destruct (IH recent) as [added [Heq Hall]]. exists added. split; [exact Heq|].
      intros u [<-|Hu]; [|apply Hall; exact Hu].
      apply in_or_app; left. apply set_contains_In; exact E.
    + destruct (IH (recent ++ [t])) as [added [Heq Hall]]. exists ([t] ++ added).
      rewrite app_assoc. split; [exact Heq|].
      intros u [<-|Hu]; [|apply Hall; exact Hu].
      apply in_or_app; left. apply in_or_app; right. left; reflexivity.
Qed.

Lemma NoDup_skipn {A : Type} n (l : list A) : NoDup l -> NoDup (skipn n l).
Proof.
  revert l; induction n as [|n IH]; intros l Hl; [exact Hl|].
  destruct l as [|x l]; [constructor|]. simpl. apply IH. inversion Hl; assumption.
Qed.

Lemma In_skipn {A : Type} n (l : list A) x : In x (skipn n l) -> In x l.
Proof.
  intros H. rewrite <- (firstn_skipn n l). apply in_or_app. right. exact H.
Qed.

Lemma keep_last_topics_length l : (List.length (keep_last_topics l) <= 10)%nat.
Proof.
  unfold keep_last_topics. destruct (Nat.ltb 10 (List.length l)) eqn:E.
  - rewrite length_skipn. apply Nat.ltb_lt in E. lia.
  - apply Nat.ltb_ge in E. exact E.
Qed.

Lemma keep_last_topics_nodup l : NoDup l -> NoDup (keep_last_topics l).
Proof.
  unfold keep_last_topics. destruct (Nat.ltb 10 (List.length l)); [apply NoDup_skipn | auto].
Qed.

(** X1. After an exchange the session holds at most 10 topics, and a topic
    list without duplicates stays without duplicates, whatever topics the
    exchange brings (repeated or not). *)
Theorem session_topics_bounded_distinct :
  forall session now user_msg assistant_msg summary topics,
    let s' := exchange_update session now user_msg assistant_msg summary topics in
    (List.length (recent_topics s') <= 10)%nat
    /\ (NoDup (recent_topics session) -> NoDup (recent_topics s')).
Proof.
  intros. subst s'. simpl. split.
  - apply keep_last_topics_length.
  - intros H. apply keep_last_topics_nodup, push_new_topics_nodup, H.
Qed.

(** X2. A topic is not refreshed when it is mentioned again: with 10
    distinct topics stored, an exchange that mentions the oldest one again
    together with a new topic evicts that oldest topic. *)
Theorem session_topic_mentioned_again_evicted :
  forall session now user_msg assistant_msg summary topics t rest u,
    recent_topics session = t :: rest ->
    List.length rest = 9%nat ->
    NoDup (t :: rest) ->
    In t topics -> In u topics -> ~ In u (t :: rest) ->
    ~ In t (recent_topics (exchange_update session now user_msg assistant_msg summary topics)).
Proof.
  intros session now user_msg assistant_msg summary topics t rest u Hs Hlen Hnd Ht Hu Hnu.
  simpl. rewrite Hs.
  destruct (push_new_topics_extends (t :: rest) topics) as [added [Heq Hall]].
  pose proof (push_new_topics_nodup (t :: rest) topics Hnd) as Hnd'.
  rewrite Heq in *.
  assert (Hadded : added <> []).
  { intros ->. rewrite app_nil_r in Hall. apply Hnu, Hall, Hu. }
  destruct added as [|a added']; [congruence|].
  unfold keep_last_topics.
  simpl List.length in *. rewrite length_app in *. simpl List.length in *.
  replace (Nat.ltb 10 (S (List.length rest + S (List.length added')))) with true
    by (symmetry; apply Nat.ltb_lt; lia).
  replace (S (List.length rest + S (List.length added')) - 10)%nat
    with (S (List.length added')) by lia.
  simpl skipn. intros Hin. apply In_skipn in Hin.
  simpl in Hnd'. inversion Hnd' as [|? ? Hnot _]. apply Hnot, Hin.
Qed.

Lemma session_key_eq a b : rstr_eqb (session_key a) (session_key b) = rstr_eqb a b.
Proof.
  destruct (rstr_eqb a b) eqn:E.
  - apply rstr_eqb_true in E. subst b. apply rstr_eqb_true. reflexivity.
  - destruct (rstr_eqb (session_key a) (session_key b)) eqn:E'; [|reflexivity].
    apply rstr_eqb_true in E'. unfold session_key in E'. apply app_inv_head in E'.
    subst b. rewrite (proj2 (rstr_eqb_true a a) eq_refl) in E. discriminate.
Qed.

Lemma get_set_session st now s now' :
  now' < now + session_ttl ->
  get_session (set_session st now s) now' (chat_id s) = Some s.
Proof.
  intros H. unfold get_session, set_session.
  rewrite (proj2 (rstr_eqb_true _ _) eq_refl).
  apply Z.ltb_lt in H. rewrite H. reflexivity.
Qed.

Lemma get_set_session_expired st now s now' :
  now + session_ttl <= now' ->
  get_session (set_session st now s) now' (chat_id s) = None.
Proof.
  intros H. unfold get_session, set_session.
  rewrite (proj2 (rstr_eqb_true _ _) eq_refl).
  apply Z.ltb_ge in H. rewrite H. reflexivity.
Qed.

(** X3. Session lifetime: starting with no live session for a chat, after
    two exchanges at [t1 <= t2] the stored session (read before it expires)
    has [turn_count] 2 and the topics of both exchanges when the second
    exchange came within 24 hours of the first; otherwise the first session
    had expired and the count restarts at 1 with the second exchange's
    topics only. *)
Theorem session_turns_reset_after_idle_day :
  forall st cid t1 t2 t3 u1 a1 sm1 tp1 u2 a2 sm2 tp2,
    get_session st t1 cid = None ->
    t1 <= t2 -> t2 <= t3 < t2 + session_ttl ->
    let st1 := update_session_after_exchange st t1 cid u1 a1 sm1 tp1 in
    let st2 := update_session_after_exchange st1 t2 cid u2 a2 sm2 tp2 in
    exists s, get_session st2 t3 cid = Some s
      /\ turn_count s = (if t2 <? t1 + session_ttl then 2 else 1)
      /\ recent_topics s =
           keep_last_topics
             (push_new_topics
                (if t2 <? t1 + session_ttl then keep_last_topics (push_new_topics [] tp1) else [])
                tp2).
Proof.
  intros st cid t1 t2 t3 u1 a1 sm1 tp1 u2 a2 sm2 tp2 H0 H12 H23 st1 st2.
  subst st1 st2. unfold update_session_after_exchange at 2. rewrite H0.
  set (s1 := exchange_update (default_session cid t1) t1 u1 a1 sm1 tp1).
  assert (Hc1 : chat_id s1 = cid) by reflexivity.
  unfold update_session_after_exchange.
  destruct (t2 <? t1 + session_ttl) eqn:E.
  - apply Z.ltb_lt in E.
    pose proof (get_set_session st t1 s1 t2 E) as G. rewrite Hc1 in G. rewrite G.
    set (s2 := exchange_update s1 t2 u2 a2 sm2 tp2).
    exists s2. split; [|split; reflexivity].
    replace cid with (chat_id s2) by reflexivity.
    apply get_set_session; lia.
  - apply Z.ltb_ge in E.
    pose proof (get_set_session_expired st t1 s1 t2 E) as G. rewrite Hc1 in G. rewrite G.
    set (s2 := exchange_update (default_session cid t2) t2 u2 a2 sm2 tp2).
    exists s2. split; [|split; reflexivity].
    replace cid with (chat_id s2) by reflexivity.
    apply get_set_session; lia.
Qed.

Lemma session_topics_bounded_distinct_witness :
  NoDup (recent_topics (exchange_update (default_session (rs "c1") 0) 0 [] [] []
                          [rs "cats"; rs "cats"; rs "dogs"])).
Proof.
  exact (proj2 (session_topics_bounded_distinct (default_session (rs "c1") 0) 0 [] [] []
                  [rs "cats"; rs "cats"; rs "dogs"]) (NoDup_nil _)).
Defined.


Lemma session_topic_mentioned_again_evicted_witness :
  ~ In [0] (recent_topics (exchange_update
                             (mkSession (rs "c1") [] None ten_topics 10 None None [] [] 0)
                             5 [] [] [] [[0]; [99]])).
Proof.
  apply (session_topic_mentioned_again_evicted
           (mkSession (rs "c1") [] None ten_topics 10 None None [] [] 0)
           5 [] [] [] [[0]; [99]] [0] (map (fun n => [Z.of_nat n]) (seq 1 9)) [99]).
  - reflexivity.
  - reflexivity.
  - cbn. repeat constructor; cbn; intuition congruence.
  - left; reflexivity.
  - right; left; reflexivity.
  - cbn. intuition congruence.
Defined.

Lemma session_turns_reset_after_idle_day_witness :
  exists s, get_session
              (update_session_after_exchange
                 (update_session_after_exchange (fun _ => None) 0 (rs "c1") [] [] [] [rs "cats"])
                 100 (rs "c1") [] [] [] [rs "dogs"])
              200 (rs "c1") = Some s
            /\ turn_count s = 2.
Proof.
  destruct (session_turns_reset_after_idle_day (fun _ => None) (rs "c1") 0 100 200
              [] [] [] [rs "cats"] [] [] [] [rs "dogs"] eq_refl
              ltac:(lia) ltac:(unfold session_ttl; lia)) as [s [H1 [H2 _]]].
  exists s. split; [exact H1 | rewrite H2; reflexivity].
Defined.

(* ------------------------------------------------------------------ *)
(** ** Signal queue and tool history proofs *)

Lemma lstore_set_same ls k l : lstore_set ls k l k = l.
Proof. unfold lstore_set. rewrite (proj2 (rstr_eqb_true k k) eq_refl). reflexivity. Qed.

Lemma dequeue_all_empty n ls q : ls q = [] -> dequeue_all n ls q = repeat None n.
Proof.
  intros H. induction n as [|n IH]; [reflexivity|].
  simpl. unfold dequeue_signal, lpop. rewrite H. simpl. f_equal. exact IH.
Qed.

Lemma dequeue_all_list l n ls q :
  ls q = l -> dequeue_all (List.length l + n) ls q = map Some l ++ repeat None n.
Proof.
  revert ls; induction l as [|x l IH]; intros ls H.
  - apply dequeue_all_empty, H.
  - simpl. unfold dequeue_signal at 1. unfold lpop. rewrite H. simpl. f_equal.
    apply IH. apply lstore_set_same.
Qed.

Lemma queue_signals_at ls q xs :
  fold_left (fun s x => queue_signal s q x) xs ls q = ls q ++ xs.
Proof.
  revert ls; induction xs as [|x xs IH]; intros ls; simpl.
  - rewrite app_nil_r. reflexivity.
  - rewrite IH. unfold queue_signal, rpush. rewrite lstore_set_same, <- app_assoc. reflexivity.
Qed.

(** X4. The signal queue is first in, first out: after the signals [xs]
    are queued behind the pending ones [l], successive [dequeue_signal]
    calls return [l] then [xs] in order, then [None] once it is empty. *)
Theorem signal_queue_fifo :
  forall ls q l xs n,
    ls q = l ->
    dequeue_all (List.length (l ++ xs) + n) (fold_left (fun s x => queue_signal s q x) xs ls) q
    = map Some (l ++ xs) ++ repeat None n.
Proof.
  intros ls q l xs n H. apply dequeue_all_list. rewrite queue_signals_at, H. reflexivity.
Qed.

Lemma redis_range_tail l c :
  0 <= c -> redis_range l (- c) (-1) = if c =? 0 then l else lastn (Z.to_nat c) l.
Proof.
  intros Hc. unfold redis_range, lastn.
  destruct l as [|x l'].
  - simpl. destruct (c =? 0);
      repeat match goal with |- context [if ?b then _ else _] => destruct b end;
      rewrite ?skipn_nil, ?firstn_nil; reflexivity.
  - set (l := x :: l'). assert (Hl : (1 <= List.length l)%nat) by (simpl; lia).
    set (n := Z.of_nat (List.length l)).
    assert (Hn : 1 <= n) by (subst n; lia).
    replace (-1 <? 0) with true by reflexivity.
    destruct (Z.eqb_spec c 0) as [->|Hc0].
    + simpl (- 0). replace (0 <? 0) with false by reflexivity.
      replace ((n + -1 <? Z.max 0 0) || (n <=? Z.max 0 0)) with false
        by (symmetry; apply orb_false_iff; split; [apply Z.ltb_ge | apply Z.leb_gt]; lia).
      simpl skipn. apply firstn_all2. subst n. lia.
    + replace (- c <? 0) with true by (symmetry; apply Z.ltb_lt; lia).
      replace ((n + -1 <? Z.max 0 (n + - c)) || (n <=? Z.max 0 (n + - c))) with false
        by (symmetry; apply orb_false_iff; split; [apply Z.ltb_ge | apply Z.leb_gt]; lia).
      replace (Z.to_nat (Z.max 0 (n + - c))) with (List.length l - Z.to_nat c)%nat
        by (subst n; lia).
      apply firstn_all2. rewrite length_skipn. subst n. lia.
Qed.

(** X5. [record_tool_execution] keeps the history at its 50 most recent
    entries, the new one last, and touches no other key. *)
Theorem tool_history_keeps_last_50 :
  forall ls exec_json,
    let ls' := record_tool_execution ls exec_json in
    ls' tool_history_key = lastn 50 (ls tool_history_key ++ [exec_json])
    /\ (List.length (ls' tool_history_key) <= 50)%nat
    /\ (forall k, k <> tool_history_key -> ls' k = ls k).
Proof.
  intros ls exec_json ls'. subst ls'. unfold record_tool_execution.
  rewrite !lstore_set_same.
  change (-50) with (- (50)). rewrite redis_range_tail by lia. simpl Z.eqb. cbv iota.
  unfold rpush. rewrite lstore_set_same.
  split; [reflexivity|split].
  - unfold lastn. rewrite length_skipn. lia.
  - intros k Hk. unfold lstore_set.
    destruct (rstr_eqb k tool_history_key) eqn:E; [apply rstr_eqb_true in E; contradiction|].
    reflexivity.
Qed.

(** X6. [get_tool_history count] (for [count >= 0]) returns the parsable
    entries among the last [count] ones, in order; [count = 0] asks Redis
    for [LRANGE 0 -1] and so returns the whole history, not nothing. *)
Theorem tool_history_window :
  forall (A : Type) (from_json : rstr -> option A) ls count,
    0 <= count ->
    get_tool_history from_json ls count
    = filter_map from_json (if count =? 0 then ls tool_history_key
                            else lastn (Z.to_nat count) (ls tool_history_key)).
Proof.
  intros A from_json ls count Hc. unfold get_tool_history.
  rewrite redis_range_tail by exact Hc. reflexivity.
Qed.

Lemma signal_queue_fifo_witness :
  dequeue_all 3 (fold_left (fun s x => queue_signal s (rs "input_queue") x)
                   [rs "hello"; rs "world"] (fun _ => []))
    (rs "input_queue")
  = [Some (rs "hello"); Some (rs "world"); None].
Proof.
  exact (signal_queue_fifo (fun _ => []) (rs "input_queue") [] [rs "hello"; rs "world"] 1
           eq_refl).
Defined.

Lemma tool_history_keeps_last_50_witness :
  record_tool_execution (fun _ => [rs "x"]) (rs "{}") (rs "input_queue") = [rs "x"].
Proof.
  apply (proj2 (proj2 (tool_history_keeps_last_50 (fun _ => [rs "x"]) (rs "{}")))).
  discriminate.
Defined.

Lemma tool_history_window_witness :
  get_tool_history (fun j => Some j)
    (fun _ => [rs "a"; rs "b"; rs "c"]) 0 = [rs "a"; rs "b"; rs "c"].
Proof.
  exact (tool_history_window rstr (fun j => Some j) (fun _ => [rs "a"; rs "b"; rs "c"]) 0
           ltac:(lia)).
Defined.

(* ------------------------------------------------------------------ *)
(** ** Embedding generation proofs *)

(** X9. On a cache miss, the embedding service's failures are handled
    asymmetrically: a request that cannot be sent makes the call (and so
    [store_memory_cached]) fail with no point stored, while a response with
    an error status is replaced by the hash fallback vector, which is then
    stored. *)
Theorem embedding_send_error_not_masked :
  forall sha256 sf nf st now ts id content mt metadata e b,
    get_cached_embedding sha256 st now content = Some None ->
    store_memory_cached sha256 sf nf st now ts id content mt metadata (EmbSendErr e)
      = Some (Err e, st)
    /\ exists st', store_memory_cached sha256 sf nf st now ts id content mt metadata
                     (EmbStatus false b)
                   = Some (Ok (mkPoint id (sf content)
                                (obj_insert (obj_insert (obj_insert metadata "content" (JStr content))
                                   "type" (JStr (memory_type_str mt))) "timestamp" (JStr ts))), st').
Proof.
  intros sha256 sf nf st now ts id content mt metadata e b Hmiss.
  unfold store_memory_cached, generate_embedding_cached. rewrite Hmiss. simpl.
  split; [reflexivity|]. eexists. reflexivity.
Qed.

Lemma obj_get_insert_same o k v : obj_get (obj_insert o k v) k = Some v.
Proof.
  induction o as [|[k' v'] o IH]; simpl.
  - rewrite String.eqb_refl. reflexivity.
  - destruct (String.eqb k k') eqn:E; simpl.
    + rewrite E. reflexivity.
    + rewrite E. exact IH.
Qed.

Lemma obj_get_insert_other o k v k2 : k2 <> k -> obj_get (obj_insert o k v) k2 = obj_get o k2.
Proof.
  intros Hne. induction o as [|[k' v'] o IH]; simpl.
  - destruct (String.eqb k2 k) eqn:E; [apply String.eqb_eq in E; contradiction | reflexivity].
  - destruct (String.eqb k k') eqn:E; simpl.
    + apply String.eqb_eq in E. subst k'.
      destruct (String.eqb k2 k) eqn:E2; [apply String.eqb_eq in E2; contradiction | reflexivity].
    + destruct (String.eqb k2 k'); [reflexivity | exact IH].
Qed.

(** X10. A stored memory's payload has ["content"], ["type"] (the memory
    type's display name) and ["timestamp"] set from the request, overriding
    metadata fields of the same names; every other metadata field is kept
    unchanged, and the point carries the request's id and the embedding. *)
Theorem store_memory_payload_fields :
  forall sha256 sf nf st now ts id content mt metadata resp p st',
    store_memory_cached sha256 sf nf st now ts id content mt metadata resp = Some (Ok p, st') ->
    pt_id p = id
    /\ obj_get (pt_payload p) "content" = Some (JStr content)
    /\ obj_get (pt_payload p) "type" = Some (JStr (memory_type_str mt))
    /\ obj_get (pt_payload p) "timestamp" = Some (JStr ts)
    /\ (forall k, k <> "content"%string -> k <> "type"%string -> k <> "timestamp"%string ->
        obj_get (pt_payload p) k = obj_get metadata k).
Proof.
  intros sha256 sf nf st now ts id content mt metadata resp p st' H.
  unfold store_memory_cached in H.
  destruct (generate_embedding_cached sha256 sf nf st now content resp) as [[[[emb|e] spawned] called]|];
    try discriminate.
  injection H as <- _. simpl.
  split; [reflexivity|]. split; [|split; [|split]].
  - rewrite !obj_get_insert_other by discriminate. apply obj_get_insert_same.
  - rewrite obj_get_insert_other by discriminate. apply obj_get_insert_same.
  - apply obj_get_insert_same.
  - intros k H1 H2 H3. rewrite !obj_get_insert_other by assumption. reflexivity.
Qed.

Lemma embedding_send_error_not_masked_witness :
  store_memory_cached sample_digest (fun _ => [0; 0]) (fun _ => 0) (fun _ => None) 1000
    (rs "2026-01-01T00:00:00+00:00") (rs "m1") (rs "hello") Conversation []
    (EmbSendErr (rs "connection refused"))
  = Some (Err (rs "connection refused"), fun _ => None).
Proof.
  exact (proj1 (embedding_send_error_not_masked sample_digest (fun _ => [0; 0]) (fun _ => 0)
                  (fun _ => None) 1000 (rs "2026-01-01T00:00:00+00:00") (rs "m1") (rs "hello")
                  Conversation [] (rs "connection refused") None
                  ltac:(vm_compute; reflexivity))).
Defined.

Lemma store_memory_payload_fields_witness :
  obj_get (pt_payload (mkPoint (rs "m1") [7]
             [("content"%string, JStr (rs "hello")); ("role"%string, JStr (rs "user"));
              ("type"%string, JStr (rs "conversation"));
              ("timestamp"%string, JStr (rs "2026-01-01T00:00:00+00:00"))]))
    "content" = Some (JStr (rs "hello")).
Proof.
  apply (store_memory_payload_fields sample_digest (fun _ => [0; 0]) (fun _ => 7)
           (fun _ => None) 1000 (rs "2026-01-01T00:00:00+00:00") (rs "m1") (rs "hello")
           Conversation
           [("content"%string, JStr (rs "stale")); ("role"%string, JStr (rs "user"))]
           (EmbStatus true (Some (Some [JNum 1; JNotNum])))
           _ (fun _ => None)).
  vm_compute. reflexivity.
Defined.

(* ------------------------------------------------------------------ *)
(** ** Dreaming, perception and reflection proofs *)

(** X11. After the dreaming step has run at [t_dream], it cannot run again
    before the cooldown is over: at any instant less than [cooldown] hours
    after [t_dream], the activation test fails (whatever the generation
    outcome was). *)
Theorem dream_not_reactivated_within_cooldown :
  forall now t_dream t_active env cfg ms gen now',
    dream_gate now env cfg ms = true ->
    0 <= now' - t_dream < dream_cooldown_hours env * hour_ns ->
    dream_gate now' env cfg (fst (dreaming_system now t_dream t_active env cfg ms gen)) = false.
Proof.
  intros now t_dream t_active env cfg ms gen now' Hg Hw.
  unfold dreaming_system. rewrite Hg.
  assert (Hh : num_hours (now' - t_dream) < dream_cooldown_hours env).
  { unfold num_hours, num_seconds, hour_ns in *.
    rewrite (Z.quot_div_nonneg (now' - t_dream)) by lia.
    rewrite Z.quot_div_nonneg by (try apply Z.div_pos; lia).
    rewrite Z.div_div by lia. apply Z.div_lt_upper_bound; lia. }
  destruct gen; unfold dream_gate; simpl;
    replace (dream_cooldown_hours env <=? num_hours (now' - t_dream)) with false
      by (symmetry; apply Z.leb_gt; exact Hh);
    rewrite !andb_false_r; reflexivity.
Qed.

(** X13. [num_seconds() as u64] wraps negative durations: when
    [last_active] lies one second or more in the future (clock skew), the
    idle time reads as at least [2^64 - 2^63] seconds, so the idle test
    passes for every threshold below [2^63]; an agent that is not dreaming
    and out of its cooldown then dreams although it was never idle. *)
Theorem dream_idle_test_future_last_active :
  forall now env cfg ms,
    num_seconds (now - last_active ms) <= -1 ->
    - 9223372036854775808 <= num_seconds (now - last_active ms) ->
    dream_threshold_seconds cfg < 9223372036854775808 ->
    is_dreaming ms = false ->
    last_dream ms = None ->
    dream_gate now env cfg ms = true.
Proof.
  intros now env cfg ms H1 H2 H3 Hd Hl.
  unfold dream_gate. rewrite Hd, Hl, andb_true_r, andb_true_r.
  apply Z.ltb_lt. unfold as_u64.
  rewrite Z.mod_eq by lia.
  replace (num_seconds (now - last_active ms) / 18446744073709551616) with (-1).
  - lia.
  - apply Z.div_unique with (r := num_seconds (now - last_active ms) + 18446744073709551616);
      lia.
Qed.

(** X14. The mood increase of a dream does not survive the next tick:
    perception, having found the agent idle for over a minute, writes the
    mental state to the cache; when the dreaming step then runs, the next
    perception (less than a minute after the dream ended) copies the cached
    mood back, which is the mood from before the dream. *)
Theorem dream_mood_boost_discarded :
  forall now0 ms cache0 now1 t_dream t_active env cfg gen now2,
    60 < num_seconds (now0 - last_active ms) ->
    dream_gate now1 env cfg (fst (perception_system now0 ms cache0)) = true ->
    num_seconds (now2 - t_active) <= 60 ->
    mood (fst (perception_system now2
                 (fst (dreaming_system now1 t_dream t_active env cfg
                         (fst (perception_system now0 ms cache0)) gen))
                 (snd (perception_system now0 ms cache0))))
    = mood (fst (perception_system now0 ms cache0)).
Proof.
  intros now0 ms cache0 now1 t_dream t_active env cfg gen now2 Hidle Hg Hrecent.
  destruct (perception_system now0 ms cache0) as [ms_p cache1] eqn:E. simpl in *.
  unfold perception_system in E.
  set (ms1 := match cache0 with
              | Some c => mkMentalState (c_mood c) (c_energy c) (c_is_dreaming c)
                            (last_active ms) (last_dream ms) (c_focus_level c)
              | None => ms
              end) in E.
  assert (Hla : last_active ms1 = last_active ms) by (subst ms1; destruct cache0; reflexivity).
  rewrite Hla in E. replace (60 <? num_seconds (now0 - last_active ms)) with true in E
    by (symmetry; apply Z.ltb_lt; exact Hidle).
  injection E as <- <-.
  unfold dreaming_system. rewrite Hg. unfold perception_system. simpl.
  replace (60 <? num_seconds (now2 - t_active)) with false
    by (symmetry; apply Z.ltb_ge; exact Hrecent).
  reflexivity.
Qed.

(** X15. Reflection runs at most once per day once it succeeds: after a
    reflection for [today] that ran (in the time window, no marker yet, a
    non-empty history) and succeeded, any later call for the same day
    within the marker's 24 hours does nothing, whatever the time, the
    history and the generation outcome. *)
Theorem reflection_once_per_day :
  forall hour minute target today now st m ms r hour' minute' now' history' gen',
    (hour =? target) && (minute <? 2) = true ->
    cache_get st now (reflected_key today) = None ->
    now' < now + 86400 ->
    let st1 := fst (reflection_system hour minute target today now st (Ok (m :: ms)) (GenOk r)) in
    reflection_system hour' minute' target today now' st1 history' gen' = (st1, []).
Proof.
  intros hour minute target today now st m ms r hour' minute' now' history' gen' Hw Hnone Ht st1.
  assert (Hst1 : st1 = cache_set st now (reflected_key today) (rs "true") 86400).
  { subst st1. unfold reflection_system. rewrite Hw, Hnone. reflexivity. }
  unfold reflection_system at 1.
  destruct ((hour' =? target) && (minute' <? 2)); [|reflexivity].
  rewrite Hst1 at 1. rewrite cache_get_set by exact Ht. reflexivity.
Qed.

(** X16. Until a reflection succeeds no marker is written: after a call in
    the time window whose history was unavailable or empty, or whose
    generation failed, the next call in the window with a non-empty
    history calls the LLM again (every tick of the two-minute window does,
    as long as it keeps failing). *)
Theorem reflection_retried_until_success :
  forall hour minute target today now st history gen hour' minute' now' m ms gen',
    (hour =? target) && (minute <? 2) = true ->
    cache_get st now (reflected_key today) = None ->
    match history, gen with
    | Ok (_ :: _), GenOk _ => False
    | _, _ => True
    end ->
    (hour' =? target) && (minute' <? 2) = true ->
    cache_get st now' (reflected_key today) = None ->
    let st1 := fst (reflection_system hour minute target today now st history gen) in
    st1 = st
    /\ hd_error (snd (reflection_system hour' minute' target today now' st1 (Ok (m :: ms)) gen'))
       = Some ReflectionInfer.
Proof.
  intros hour minute target today now st history gen hour' minute' now' m ms gen'
    Hw Hnone Hfail Hw' Hnone' st1.
  assert (Hst1 : st1 = st).
  { subst st1. unfold reflection_system. rewrite Hw, Hnone.
    destruct history as [[|h t]|e]; [reflexivity| |reflexivity].
    destruct gen; [contradiction | reflexivity]. }
  split; [exact Hst1|]. rewrite Hst1.
  unfold reflection_system. rewrite Hw', Hnone'. destruct gen'; reflexivity.
Qed.

(** Example for X11: an agent idle for 1000 s with the default cooldown of
    7 hours dreams at [t]; one hour later the test fails. *)
Lemma dream_not_reactivated_within_cooldown_witness :
  dream_gate (1000000000000 + hour_ns) None (mkAgentConfig 100)
    (fst (dreaming_system 1000000000000 1000000000000 1000000000000 None (mkAgentConfig 100)
            (mkMentalState 0 1 false 0 None 1) (GenOk (rs "a dream")))) = false.
Proof.
  apply (dream_not_reactivated_within_cooldown 1000000000000 1000000000000 1000000000000 None
           (mkAgentConfig 100) (mkMentalState 0 1 false 0 None 1) (GenOk (rs "a dream"))
           (1000000000000 + hour_ns)).
  - vm_compute. reflexivity.
  - unfold hour_ns, dream_cooldown_hours. lia.
Defined.

(** Example for X12. *)
(** Example for X13: [last_active] five seconds ahead of the clock and a
    threshold of 300 s. *)
Lemma dream_idle_test_future_last_active_witness :
  dream_gate 0 None (mkAgentConfig 300) (mkMentalState 0 1 false 5000000000 None 1) = true.
Proof.
  apply (dream_idle_test_future_last_active 0 None (mkAgentConfig 300)
           (mkMentalState 0 1 false 5000000000 None 1));
    vm_compute; try reflexivity; discriminate.
Defined.

(** Example for X14: no cached state, idle for 1000 s, a dream at the
    same instant and a perception one second later. *)
Lemma dream_mood_boost_discarded_witness :
  mood (fst (perception_system 1001000000000
               (fst (dreaming_system 1000000000000 1000000000000 1000000000000 None
                       (mkAgentConfig 100)
                       (fst (perception_system 1000000000000 (mkMentalState 0 1 false 0 None 1) None))
                       (GenOk (rs "a dream"))))
               (snd (perception_system 1000000000000 (mkMentalState 0 1 false 0 None 1) None))))
  = mood (fst (perception_system 1000000000000 (mkMentalState 0 1 false 0 None 1) None)).
Proof.
  apply (dream_mood_boost_discarded 1000000000000 (mkMentalState 0 1 false 0 None 1) None
           1000000000000 1000000000000 1000000000000 None (mkAgentConfig 100)
           (GenOk (rs "a dream")) 1001000000000);
    vm_compute; try reflexivity; discriminate.
Defined.

(** Example for X15: a reflection at 03:00 and a later call at 03:01. *)
Lemma reflection_once_per_day_witness :
  reflection_system 3 1 3 (rs "2026-10-18") 60
    (fst (reflection_system 3 0 3 (rs "2026-10-18") 0 (fun _ => None)
            (Ok [(rs "user", rs "hello")]) (GenOk (rs "a good day"))))
    (Ok [(rs "user", rs "hello")]) (GenOk (rs "another"))
  = (fst (reflection_system 3 0 3 (rs "2026-10-18") 0 (fun _ => None)
            (Ok [(rs "user", rs "hello")]) (GenOk (rs "a good day"))), []).
Proof.
  apply (reflection_once_per_day 3 0 3 (rs "2026-10-18") 0 (fun _ => None)
           (rs "user", rs "hello") [] (rs "a good day") 3 1 60
           (Ok [(rs "user", rs "hello")]) (GenOk (rs "another")));
    vm_compute; reflexivity.
Defined.

(** Example for X16: a failed generation at 03:00, retried at 03:01. *)
Lemma reflection_retried_until_success_witness :
  fst (reflection_system 3 0 3 (rs "2026-10-18") 0 (fun _ => None)
         (Ok [(rs "user", rs "hello")]) (GenErr (rs "timeout"))) = (fun _ => None)
  /\ hd_error (snd (reflection_system 3 1 3 (rs "2026-10-18") 60
                      (fst (reflection_system 3 0 3 (rs "2026-10-18") 0 (fun _ => None)
                              (Ok [(rs "user", rs "hello")]) (GenErr (rs "timeout"))))
                      (Ok [(rs "user", rs "hello")]) (GenOk (rs "a good day"))))
     = Some ReflectionInfer.
Proof.
  apply (reflection_retried_until_success 3 0 3 (rs "2026-10-18") 0 (fun _ => None)
           (Ok [(rs "user", rs "hello")]) (GenErr (rs "timeout")) 3 1 60
           (rs "user", rs "hello") [] (GenOk (rs "a good day")));
    vm_compute; try reflexivity; exact I.
Defined.

(* ------------------------------------------------------------------ *)
(** ** WAV concatenation proofs *)

Lemma firstn_app_len {A} (a l : list A) n : n = List.length a -> firstn n (a ++ l) = a.
Proof.
  intros ->. rewrite firstn_app, Nat.sub_diag, firstn_O, app_nil_r. apply firstn_all.
Qed.

Lemma skipn_app_len {A} (a l : list A) n : n = List.length a -> skipn n (a ++ l) = l.
Proof.
  intros ->. rewrite skipn_app, Nat.sub_diag, skipn_O, skipn_all. reflexivity.
Qed.

Lemma length_concat_sum (l : list (list Z)) : List.length (List.concat l) = sum_lengths l.
Proof.
  induction l as [|c l IH]; [reflexivity|]. simpl. rewrite length_app, IH. reflexivity.
Qed.

Lemma u32_to_le_bytes_length w : List.length (u32_to_le_bytes w) = 4%nat.
Proof. reflexivity. Qed.

(** [u32::from_le_bytes] undoes [u32::to_le_bytes]. *)
Lemma u32_from_to_le w : 0 <= w < 4294967296 -> u32_from_le (u32_to_le_bytes w) = w.
Proof.
  intros Hw. unfold u32_from_le, u32_to_le_bytes. rewrite !land_255, !Z.shiftr_div_pow2 by lia.
  change (2 ^ 8) with 256. change (2 ^ 16) with (256 * 256). change (2 ^ 24) with (256 * 256 * 256).
  rewrite <- !Z.div_div by lia.
  pose proof (Z.div_mod w 256 ltac:(lia)) as E0.
  pose proof (Z.div_mod (w / 256) 256 ltac:(lia)) as E1.
  pose proof (Z.div_mod (w / 256 / 256) 256 ltac:(lia)) as E2.
  pose proof (Z.mod_pos_bound w 256 ltac:(lia)).
  pose proof (Z.mod_pos_bound (w / 256) 256 ltac:(lia)).
  pose proof (Z.mod_pos_bound (w / 256 / 256) 256 ltac:(lia)).
  assert (Hq : w / 256 / 256 / 256 < 256).
  { rewrite !Z.div_div by lia. apply Z.div_lt_upper_bound; lia. }
  assert (0 <= w / 256 / 256 / 256) by (repeat apply Z.div_pos; lia).
  rewrite (Z.mod_small (w / 256 / 256 / 256) 256) by lia. lia.
Qed.

Lemma pcm_chunks_cons_short c rest :
  (List.length c <= 44)%nat -> pcm_chunks (c :: rest) = pcm_chunks rest.
Proof.
  intros H. unfold pcm_chunks. simpl.
  replace (Nat.ltb 44 (List.length c)) with false by (symmetry; apply Nat.ltb_ge; exact H).
  reflexivity.
Qed.

Lemma pcm_chunks_all_short l :
  Forall (fun c => (List.length c <= 44)%nat) l -> pcm_chunks l = [].
Proof.
  induction 1 as [|c l Hc _ IH]; [reflexivity|].
  rewrite pcm_chunks_cons_short by exact Hc. exact IH.
Qed.

(** X17. When the first chunk has a full 44-byte header and some chunk
    carries audio data, the result is 44 header bytes then the silence and
    the data of every chunk longer than 44 bytes, in order; the header keeps
    bytes 0-3 and 8-39 of the first chunk and holds, little-endian, the
    RIFF size (result length minus 8) at bytes 4-7 and the data size
    (result length minus 44) at bytes 40-43, both modulo 2^32. *)
Theorem concatenate_wav_header_sizes :
  forall first rest,
    (44 <= List.length first)%nat ->
    pcm_chunks (first :: rest) <> [] ->
    let out := concatenate_wav_audio (first :: rest) in
    List.length out = (44 + silence_len + sum_lengths (pcm_chunks (first :: rest)))%nat
    /\ firstn 4 out = firstn 4 first
    /\ u32_from_le (firstn 4 (skipn 4 out)) = (Z.of_nat (List.length out) - 8) mod 4294967296
    /\ firstn 32 (skipn 8 out) = firstn 32 (skipn 8 first)
    /\ u32_from_le (firstn 4 (skipn 40 out)) = (Z.of_nat (List.length out) - 44) mod 4294967296
    /\ skipn 44 out = repeat 0 silence_len ++ List.concat (pcm_chunks (first :: rest)).
Proof.
  intros first rest Hl Hp out.
  assert (Hout : out =
    firstn 4 first
    ++ u32_to_le_bytes ((Z.of_nat (silence_len + sum_lengths (pcm_chunks (first :: rest))) + 36)
                          mod 4294967296)
    ++ firstn 32 (skipn 8 first)
    ++ u32_to_le_bytes (Z.of_nat (silence_len + sum_lengths (pcm_chunks (first :: rest)))
                          mod 4294967296)
    ++ repeat 0 silence_len ++ List.concat (pcm_chunks (first :: rest))).
  { subst out. unfold concatenate_wav_audio.
    destruct (pcm_chunks (first :: rest)) as [|p ps]; [contradiction|].
    replace (Nat.leb 44 (List.length first)) with true by (symmetry; apply Nat.leb_le; exact Hl).
    rewrite repeat_length, firstn_firstn, skipn_firstn_comm, firstn_firstn, <- !app_assoc. reflexivity. }
  set (T := (silence_len + sum_lengths (pcm_chunks (first :: rest)))%nat) in *.
  assert (L4 : List.length (firstn 4 first) = 4%nat) by (rewrite length_firstn; lia).
  assert (L32 : List.length (firstn 32 (skipn 8 first)) = 32%nat)
    by (rewrite length_firstn, length_skipn; lia).
  assert (Hlen : List.length out = (44 + T)%nat).
  { rewrite Hout, !length_app, L4, L32, !u32_to_le_bytes_length, repeat_length,
      length_concat_sum. subst T. lia. }
  assert (S4 : skipn 4 out =
    u32_to_le_bytes ((Z.of_nat T + 36) mod 4294967296)
    ++ firstn 32 (skipn 8 first)
    ++ u32_to_le_bytes (Z.of_nat T mod 4294967296)
    ++ repeat 0 silence_len ++ List.concat (pcm_chunks (first :: rest))).
  { rewrite Hout. apply skipn_app_len. symmetry. exact L4. }
  assert (S8 : skipn 8 out =
    firstn 32 (skipn 8 first)
    ++ u32_to_le_bytes (Z.of_nat T mod 4294967296)
    ++ repeat 0 silence_len ++ List.concat (pcm_chunks (first :: rest))).
  { replace 8%nat with (4 + 4)%nat by reflexivity. rewrite <- skipn_skipn, S4.
    apply skipn_app_len. reflexivity. }
  assert (S40 : skipn 40 out =
    u32_to_le_bytes (Z.of_nat T mod 4294967296)
    ++ repeat 0 silence_len ++ List.concat (pcm_chunks (first :: rest))).
  { replace 40%nat with (32 + 8)%nat by reflexivity. rewrite <- skipn_skipn, S8.
    apply skipn_app_len. symmetry. exact L32. }
  assert (HT36 : 0 <= (Z.of_nat T + 36) mod 4294967296 < 4294967296)
    by (apply Z.mod_pos_bound; lia).
  assert (HT : 0 <= Z.of_nat T mod 4294967296 < 4294967296)
    by (apply Z.mod_pos_bound; lia).
  repeat split.
  - exact Hlen.
  - rewrite Hout. apply firstn_app_len. symmetry. exact L4.
  - rewrite S4, firstn_app_len by reflexivity. rewrite u32_from_to_le by exact HT36.
    rewrite Hlen. f_equal. lia.
  - rewrite S8. apply firstn_app_len. symmetry. exact L32.
  - rewrite S40, firstn_app_len by reflexivity. rewrite u32_from_to_le by exact HT.
    rewrite Hlen. f_equal. lia.
  - replace 44%nat with (4 + 40)%nat by reflexivity. rewrite <- skipn_skipn, S40.
    apply skipn_app_len. reflexivity.
Qed.

(** X18. A first chunk shorter than 44 bytes gives a result without any
    header: only the silence and the data of the longer chunks, so the
    output is not a WAV file. *)
Theorem concatenate_wav_short_first_no_header :
  forall first rest,
    (List.length first < 44)%nat ->
    pcm_chunks rest <> [] ->
    concatenate_wav_audio (first :: rest) = repeat 0 silence_len ++ List.concat (pcm_chunks rest).
Proof.
  intros first rest Hl Hp. unfold concatenate_wav_audio.
  rewrite pcm_chunks_cons_short by lia.
  destruct (pcm_chunks rest) as [|p ps]; [contradiction|].
  replace (Nat.leb 44 (List.length first)) with false by (symmetry; apply Nat.leb_gt; exact Hl).
  reflexivity.
Qed.

(** X19. When no chunk is longer than 44 bytes (no audio data at all),
    the first chunk is returned unchanged, without the silence; an empty
    list gives an empty result. *)
Theorem concatenate_wav_no_data_first :
  forall first rest,
    Forall (fun c => (List.length c <= 44)%nat) (first :: rest) ->
    concatenate_wav_audio (first :: rest) = first
    /\ concatenate_wav_audio [] = [].
Proof.
  intros first rest H. split; [|reflexivity].
  unfold concatenate_wav_audio. rewrite (pcm_chunks_all_short _ H). reflexivity.
Qed.

(** Example for X17: a 50-byte first chunk and a second one of 46 bytes. *)
Lemma concatenate_wav_header_sizes_witness :
  let out := concatenate_wav_audio [repeat 82 50; repeat 1 46] in
  List.length out = (44 + silence_len + sum_lengths (pcm_chunks [repeat 82%Z 50; repeat 1%Z 46]))%nat
  /\ firstn 4 out = firstn 4 (repeat 82 50)
  /\ u32_from_le (firstn 4 (skipn 4 out)) = (Z.of_nat (List.length out) - 8) mod 4294967296
  /\ firstn 32 (skipn 8 out) = firstn 32 (skipn 8 (repeat 82 50))
  /\ u32_from_le (firstn 4 (skipn 40 out)) = (Z.of_nat (List.length out) - 44) mod 4294967296
  /\ skipn 44 out = repeat 0 silence_len ++ List.concat (pcm_chunks [repeat 82 50; repeat 1 46]).
Proof.
  apply (concatenate_wav_header_sizes (repeat 82 50) [repeat 1 46]).
  - apply Nat.leb_le. vm_compute. reflexivity.
  - vm_compute. discriminate.
Defined.

(** Example for X18: a 10-byte first chunk and a 46-byte second one. *)
Lemma concatenate_wav_short_first_no_header_witness :
  concatenate_wav_audio [repeat 82 10; repeat 1 46]
  = repeat 0 silence_len ++ List.concat (pcm_chunks [repeat 1 46]).
Proof.
  apply (concatenate_wav_short_first_no_header (repeat 82 10) [repeat 1 46]).
  - apply Nat.ltb_lt. vm_compute. reflexivity.
  - vm_compute. discriminate.
Defined.

(** Example for X19: two header-only chunks. *)
Lemma concatenate_wav_no_data_first_witness :
  concatenate_wav_audio [repeat 82 44; repeat 1 44] = repeat 82 44
  /\ concatenate_wav_audio [] = [].
Proof.
  apply (concatenate_wav_no_data_first (repeat 82 44) [repeat 1 44]).
  repeat constructor; apply Nat.leb_le; vm_compute; reflexivity.
Defined.

(* ------------------------------------------------------------------ *)
(** ** Image-generation tag proofs *)

Lemma span_non_quote_app v r :
  ~ In quote v -> span_non_quote (v ++ quote :: r) = (v, quote :: r).
Proof.
  induction v as [|c v IH]; intros Hq; cbn [app span_non_quote].
  - rewrite Z.eqb_refl. reflexivity.
  - replace (c =? quote) with false by (symmetry; apply Z.eqb_neq; intros ->; apply Hq; left; reflexivity).
    rewrite IH by (intros H; apply Hq; right; exact H). reflexivity.
Qed.

Lemma quoted_tail_app v r :
  v <> [] -> ~ In quote v -> quoted_tail (v ++ quote :: r) = Some (v, r).
Proof.
  intros Hn Hq. unfold quoted_tail. rewrite span_non_quote_app by exact Hq.
  destruct v; [contradiction|]. reflexivity.
Qed.

Lemma image_gen_at_tag p n r :
  p <> [] -> ~ In quote p ->
  match n with Some v => v <> [] /\ ~ In quote v | None => True end ->
  image_gen_at (image_gen_tag p n ++ r) = Some (p, n, r).
Proof.
  intros Hp Hpq Hn. unfold image_gen_at, image_gen_tag. simpl.
  rewrite <- !app_assoc. simpl. rewrite quoted_tail_app by assumption.
  destruct n as [v|].
  - destruct Hn as [Hv Hvq]. unfold name_group. simpl.
    rewrite <- !app_assoc. simpl. rewrite quoted_tail_app by assumption. reflexivity.
  - simpl. reflexivity.
Qed.

Lemma strip_prefix_len lit s r :
  strip_prefix lit s = Some r -> (List.length r + List.length lit)%nat = List.length s.
Proof.
  revert s. induction lit as [|a lit IH]; intros s H; destruct s as [|c s]; simpl in H;
    try discriminate.
  - injection H as <-. simpl. lia.
  - injection H as <-. simpl. lia.
  - destruct (a =? c); [|discriminate]. simpl. rewrite <- (IH s H). lia.
Qed.

Lemma skip_ws_len s : (List.length (skip_ws s) <= List.length s)%nat.
Proof.
  induction s as [|c s IH]; simpl; [lia|]. destruct (is_whitespace c); simpl; lia.
Qed.

Lemma span_non_quote_len s :
  (List.length (fst (span_non_quote s)) + List.length (snd (span_non_quote s)))%nat
  = List.length s.
Proof.
  induction s as [|c s IH]; [reflexivity|]. simpl.
  destruct (c =? quote); [reflexivity|].
  destruct (span_non_quote s) as [a b]. simpl in *. lia.
Qed.

Lemma quoted_tail_len s v r :
  quoted_tail s = Some (v, r) -> (List.length r < List.length s)%nat.
Proof.
  unfold quoted_tail. pose proof (span_non_quote_len s) as E.
  destruct (span_non_quote s) as [a b]. simpl in E.
  destruct a as [|x a]; [discriminate|].
  destruct (strip_prefix [quote] b) as [b'|] eqn:Hb; [|discriminate].
  simpl. intros H. injection H as _ <-. apply strip_prefix_len in Hb. simpl in *. lia.
Qed.

Lemma name_group_len s n r :
  name_group s = Some (n, r) -> (List.length r < List.length s)%nat.
Proof.
  unfold name_group.
  destruct (strip_prefix (rs ",") (skip_ws s)) as [s1|] eqn:H1; [|discriminate].
  destruct (strip_prefix (rs "name=" ++ [quote]) (skip_ws s1)) as [s2|] eqn:H2; [|discriminate].
  intros H. apply quoted_tail_len in H. apply strip_prefix_len in H1, H2.
  pose proof (skip_ws_len s). pose proof (skip_ws_len s1). lia.
Qed.

Lemma image_gen_at_len s p n r :
  image_gen_at s = Some (p, n, r) -> (List.length r < List.length s)%nat.
Proof.
  unfold image_gen_at.
  destruct (strip_prefix (rs "[IMAGE_GEN:") s) as [s1|] eqn:H1; [|discriminate].
  destruct (strip_prefix (rs "prompt=" ++ [quote]) (skip_ws s1)) as [s2|] eqn:H2; [|discriminate].
  destruct (quoted_tail s2) as [[p' s3]|] eqn:H3; [|discriminate].
  apply strip_prefix_len in H1, H2. apply quoted_tail_len in H3.
  pose proof (skip_ws_len s1).
  assert (Hw : option_map (fun s5 => (p', None, s5)) (strip_prefix (rs "]") s3)
               = Some (p, n, r) -> (List.length r < List.length s)%nat).
  { destruct (strip_prefix (rs "]") s3) as [s5|] eqn:H5; simpl; [|discriminate].
    intros Hs. injection Hs as _ _ <-. apply strip_prefix_len in H5. lia. }
  destruct (name_group s3) as [[n' s4]|] eqn:H4; [|exact Hw].
  destruct (strip_prefix (rs "]") s4) as [s5|] eqn:H5; [|exact Hw].
  intros Hs. injection Hs as _ _ <-. apply strip_prefix_len in H5. apply name_group_len in H4. lia.
Qed.

Lemma scan_image_gen_fuel f1 f2 s :
  (List.length s <= f1)%nat -> (List.length s <= f2)%nat ->
  scan_image_gen f1 s = scan_image_gen f2 s.
Proof.
  revert f2 s. induction f1 as [|f1 IH]; intros f2 s H1 H2.
  - destruct s; [destruct f2; reflexivity | simpl in H1; lia].
  - destruct s as [|c s]; [destruct f2; reflexivity|].
    destruct f2 as [|f2]; [simpl in H2; lia|]. simpl in H1, H2. cbn [scan_image_gen].
    destruct (image_gen_at (c :: s)) as [[[p n] r]|] eqn:E.
    + apply image_gen_at_len in E. simpl in E. f_equal. apply IH; lia.
    + apply IH; lia.
Qed.

Lemma image_gen_at_other c s : c <> 91 -> image_gen_at (c :: s) = None.
Proof.
  intros Hc. unfold image_gen_at. change (rs "[IMAGE_GEN:") with (91 :: rs "IMAGE_GEN:").
  cbn [strip_prefix]. replace (91 =? c) with false by (symmetry; apply Z.eqb_neq; congruence).
  reflexivity.
Qed.

Lemma scan_image_gen_skip pre x f :
  ~ In 91 pre -> (List.length (pre ++ x) <= f)%nat ->
  scan_image_gen f (pre ++ x) = scan_image_gen (f - List.length pre) x.
Proof.
  revert f. induction pre as [|c pre IH]; intros f Hn Hf.
  - rewrite Nat.sub_0_r. reflexivity.
  - destruct f as [|f]; [simpl in Hf; lia|]. simpl in Hf.
    cbn [app scan_image_gen List.length]. rewrite image_gen_at_other by (intros ->; apply Hn; left; reflexivity).
    apply IH; [intros H; apply Hn; right; exact H | lia].
Qed.

(** X20. A well-formed tag is recognised and the scan resumes after it:
    for a text with no [[] before the tag, a non-empty prompt and a
    non-empty name (if any) without double quotes, the requests extracted
    from [pre], the tag and [post] are the tag's prompt and name followed by
    the requests extracted from [post] alone. *)
Theorem extract_image_gen_tag :
  forall pre p n post,
    ~ In 91 pre ->
    p <> [] -> ~ In quote p ->
    match n with Some v => v <> [] /\ ~ In quote v | None => True end ->
    extract_image_gen_requests (pre ++ image_gen_tag p n ++ post)
    = (p, n) :: extract_image_gen_requests post.
Proof.
  intros pre p n post Hpre Hp Hpq Hn. unfold extract_image_gen_requests.
  rewrite scan_image_gen_skip by (assumption || lia).
  assert (Ht : exists x, image_gen_tag p n ++ post = 91 :: x) by (eexists; reflexivity).
  destruct Ht as [x Hx].
  assert (Hlx : List.length (image_gen_tag p n ++ post) = S (List.length x)) by (rewrite Hx; reflexivity).
  assert (Hlp : (List.length post < List.length (image_gen_tag p n ++ post))%nat)
    by (rewrite length_app; unfold image_gen_tag; simpl; lia).
  replace (List.length (pre ++ image_gen_tag p n ++ post) - List.length pre)%nat
    with (S (List.length x)) by (rewrite length_app; lia).
  rewrite Hx. cbn [scan_image_gen]. rewrite <- Hx, image_gen_at_tag by assumption.
  rewrite (scan_image_gen_fuel (List.length x) (List.length post)) by lia.
  cbn [filter]. destruct p; [contradiction|]. reflexivity.
Qed.

(* ------------------------------------------------------------------ *)
(** ** Text-to-speech chunking proofs *)

Lemma filter_nw_skip_ws s : filter nw (skip_ws s) = filter nw s.
Proof.
  induction s as [|c s IH]; [reflexivity|]. simpl.
  unfold nw at 2. destruct (is_whitespace c) eqn:E; simpl; [exact IH|].
  unfold nw. rewrite E. reflexivity.
Qed.

Lemma filter_rev {A} (f : A -> bool) l : filter f (rev l) = rev (filter f l).
Proof.
  induction l as [|a l IH]; [reflexivity|]. simpl. rewrite filter_app, IH. simpl.
  destruct (f a); simpl; [reflexivity|]. apply app_nil_r.
Qed.

Lemma filter_nw_trim s : filter nw (trim s) = filter nw s.
Proof.
  unfold trim. rewrite filter_rev, filter_nw_skip_ws, filter_rev, filter_nw_skip_ws, rev_involutive.
  reflexivity.
Qed.

Lemma concat_split_inclusive p s : List.concat (split_inclusive p s) = s.
Proof.
  induction s as [|c s IH]; [reflexivity|]. simpl.
  destruct (p c); [simpl; rewrite IH; reflexivity|].
  destruct (split_inclusive p s) as [|x xs]; simpl in *; [rewrite <- IH; reflexivity|].
  rewrite IH. reflexivity.
Qed.

Lemma filter_nw_space : filter nw [32] = [].
Proof. reflexivity. Qed.

Lemma tts_flush_content m st piece : tts_content (tts_flush m st piece) = tts_content st.
Proof.
  destruct st as [chunks cur]. unfold tts_flush.
  destruct (negb (is_empty cur) && Nat.ltb m (str_len cur + str_len piece)); [|reflexivity].
  unfold tts_content. simpl. rewrite List.concat_app. simpl.
  rewrite ?app_nil_r, !filter_app, filter_nw_trim. simpl. rewrite ?app_nil_r. reflexivity.
Qed.

Lemma tts_part_step_content m st part :
  tts_content (tts_part_step m st part) = tts_content st ++ filter nw part.
Proof.
  unfold tts_part_step. rewrite <- (tts_flush_content m st (trim part)).
  destruct (tts_flush m st (trim part)) as [chunks cur]. unfold tts_content. simpl.
  rewrite !filter_app, filter_nw_trim, filter_nw_space, app_nil_r, app_assoc. reflexivity.
Qed.

Lemma fold_tts_part_content m parts st :
  tts_content (fold_left (tts_part_step m) parts st)
  = tts_content st ++ filter nw (List.concat parts).
Proof.
  revert st. induction parts as [|x parts IH]; intros st; simpl.
  - rewrite app_nil_r. reflexivity.
  - rewrite IH, tts_part_step_content, filter_app, app_assoc. reflexivity.
Qed.

Lemma is_empty_true s : is_empty s = true -> s = [].
Proof. destruct s; simpl; congruence. Qed.

Lemma tts_sentence_step_content m st sentence :
  tts_content (tts_sentence_step m st sentence) = tts_content st ++ filter nw sentence.
Proof.
  unfold tts_sentence_step.
  destruct (is_empty (trim sentence)) eqn:E.
  - apply is_empty_true in E. rewrite <- filter_nw_trim, E, app_nil_r. reflexivity.
  - rewrite <- (tts_flush_content m st (trim sentence)).
    destruct (tts_flush m st (trim sentence)) as [chunks cur].
    destruct (Nat.ltb m (str_len (trim sentence))).
    + rewrite fold_tts_part_content, concat_split_inclusive, filter_nw_trim. reflexivity.
    + unfold tts_content. simpl.
      rewrite !filter_app, filter_nw_trim, filter_nw_space, app_nil_r, app_assoc. reflexivity.
Qed.

Lemma fold_tts_sentence_content m sentences st :
  tts_content (fold_left (tts_sentence_step m) sentences st)
  = tts_content st ++ filter nw (List.concat sentences).
Proof.
  revert st. induction sentences as [|x xs IH]; intros st; simpl.
  - rewrite app_nil_r. reflexivity.
  - rewrite IH, tts_sentence_step_content, filter_app, app_assoc. reflexivity.
Qed.

Lemma concat_filter_nonempty (l : list rstr) :
  List.concat (filter (fun c => negb (is_empty c)) l) = List.concat l.
Proof.
  induction l as [|c l IH]; [reflexivity|]. simpl.
  destruct c; simpl; rewrite IH; reflexivity.
Qed.

(** X21. Chunking for speech loses, duplicates and reorders no text: the
    chunks put end to end hold the same non-white-space characters as the
    input, in the same order (only white space is dropped or added). *)
Theorem chunk_text_for_tts_keeps_text :
  forall text max_chars,
    filter nw (List.concat (chunk_text_for_tts text max_chars)) = filter nw text.
Proof.
  intros text m. unfold chunk_text_for_tts.
  destruct (Nat.leb (str_len text) m).
  - simpl. rewrite app_nil_r. reflexivity.
  - pose proof (fold_tts_sentence_content m (split_inclusive is_sentence_end text) ([], [])) as H.
    rewrite concat_split_inclusive in H.
    destruct (fold_left (tts_sentence_step m) (split_inclusive is_sentence_end text) ([], []))
      as [chunks cur].
    unfold tts_content in H. simpl in H. rewrite <- H.
    rewrite concat_filter_nonempty.
    destruct (is_empty (trim cur)) eqn:E.
    + apply is_empty_true in E. rewrite filter_app.
      rewrite <- (filter_nw_trim cur), E, app_nil_r. reflexivity.
    + rewrite List.concat_app, !filter_app. simpl. rewrite app_nil_r, filter_nw_trim. reflexivity.
Qed.


Lemma split_inclusive_none p s :
  Forall (fun c => p c = false) s -> s <> [] -> split_inclusive p s = [s].
Proof.
  induction s as [|c s IH]; intros Hf Hn; [contradiction|].
  inversion Hf as [|? ? Hc Hs]; subst. simpl. rewrite Hc.
  destruct s as [|c' s']; [reflexivity|]. rewrite IH by (assumption || discriminate). reflexivity.
Qed.

Lemma skip_ws_app_space s :
  skip_ws (s ++ [32]) = match skip_ws s with [] => [] | x => x ++ [32] end.
Proof.
  induction s as [|c s IH]; [reflexivity|]. simpl.
  destruct (is_whitespace c); [exact IH|reflexivity].
Qed.

Lemma trim_app_space s : trim (s ++ [32]) = trim s.
Proof.
  unfold trim. rewrite skip_ws_app_space.
  destruct (skip_ws s) as [|c x]; [reflexivity|].
  rewrite rev_app_distr. reflexivity.
Qed.

(** X22. [max_chars] is not a bound on the chunk length: a text longer
    than [max_chars] bytes that contains none of the sentence ends
    ([. ! ?] newline) or clause ends ([, ; :]) and has no white space at
    its ends comes back as one chunk, the whole text. *)
Theorem chunk_text_for_tts_unsplittable :
  forall text max_chars,
    Forall (fun c => is_sentence_end c = false /\ is_clause_end c = false) text ->
    trim text = text -> text <> [] ->
    (max_chars < str_len text)%nat ->
    chunk_text_for_tts text max_chars = [text].
Proof.
  intros text m Hp Ht Hn Hl. unfold chunk_text_for_tts.
  assert (E0 : is_empty text = false) by (destruct text; [contradiction | reflexivity]).
  replace (Nat.leb (str_len text) m) with false by (symmetry; apply Nat.leb_gt; exact Hl).
  rewrite split_inclusive_none
    by (first [exact Hn | eapply Forall_impl; [|exact Hp]; intros c [H _]; exact H]).
  cbn [fold_left]. unfold tts_sentence_step. rewrite Ht, E0.
  replace (Nat.ltb m (str_len text)) with true by (symmetry; apply Nat.ltb_lt; exact Hl).
  rewrite split_inclusive_none
    by (first [exact Hn | eapply Forall_impl; [|exact Hp]; intros c [_ H]; exact H]).
  cbn [fold_left]. unfold tts_part_step. rewrite Ht. cbn [tts_flush is_empty negb andb app].
  rewrite trim_app_space, Ht, E0. cbn [filter app]. rewrite E0. reflexivity.
Qed.

(** Example for X20: a named tag between two pieces of text. *)
Lemma extract_image_gen_tag_witness :
  extract_image_gen_requests
    (rs "Here you go: " ++ image_gen_tag (rs "a red fox") (Some (rs "fox")) ++ rs " Enjoy!")
  = (rs "a red fox", Some (rs "fox")) :: extract_image_gen_requests (rs " Enjoy!").
Proof.
  apply (extract_image_gen_tag (rs "Here you go: ") (rs "a red fox") (Some (rs "fox"))
           (rs " Enjoy!")).
  - vm_compute. intuition discriminate.
  - vm_compute. discriminate.
  - vm_compute. intuition discriminate.
  - split; vm_compute; [discriminate | intuition discriminate].
Defined.

(** Example for X22: eleven bytes without punctuation and a limit of 5. *)
Lemma chunk_text_for_tts_unsplittable_witness :
  chunk_text_for_tts (rs "hello world") 5 = [rs "hello world"].
Proof.
  apply (chunk_text_for_tts_unsplittable (rs "hello world") 5).
  - vm_compute. repeat constructor.
  - vm_compute. reflexivity.
  - vm_compute. discriminate.
  - apply Nat.ltb_lt. vm_compute. reflexivity.
Defined.

(* ------------------------------------------------------------------ *)
(** ** Session summary and mood cache proofs *)

Lemma str_len_app a b : str_len (a ++ b) = (str_len a + str_len b)%nat.
Proof. induction a as [|c a IH]; simpl; [reflexivity|]. rewrite IH. lia. Qed.

Lemma str_slice_to_mid a c rest n :
  (str_len a < n < str_len a + utf8_width c)%nat -> str_slice_to (a ++ c :: rest) n = None.
Proof.
  revert n. induction a as [|x a IH]; intros n Hn; simpl in Hn.
  - destruct n as [|n']; [lia|]. simpl.
    replace (Nat.ltb (S n') (utf8_width c)) with true by (symmetry; apply Nat.ltb_lt; lia).
    reflexivity.
  - destruct n as [|n']; [lia|]. cbn [app str_slice_to].
    replace (Nat.ltb (S n') (utf8_width x)) with false by (symmetry; apply Nat.ltb_ge; lia).
    rewrite IH by lia. reflexivity.
Qed.

(** X23. The session summary built after each streamed answer slices the
    user message and the answer at byte 200 without looking for a
    character boundary: when the first 199 bytes of either text end on a
    boundary and the next character takes two bytes or more, the slice
    panics, whatever the other text is. *)
Theorem exchange_summary_panics_mid_char :
  forall a c rest other,
    str_len a = 199%nat -> (2 <= utf8_width c)%nat ->
    exchange_summary (a ++ c :: rest) other = None
    /\ exchange_summary other (a ++ c :: rest) = None.
Proof.
  intros a c rest other Ha Hc.
  assert (Hs : str_slice_to (a ++ c :: rest) (Nat.min (str_len (a ++ c :: rest)) 200) = None).
  { rewrite str_len_app. cbn [str_len].
    rewrite Nat.min_r by lia. apply str_slice_to_mid. lia. }
  unfold exchange_summary. rewrite Hs. split; [reflexivity|].
  destruct (str_slice_to other _); reflexivity.
Qed.

(** Example for X23: 199 ASCII bytes followed by U+00E9. *)
Lemma exchange_summary_panics_mid_char_witness :
  exchange_summary (repeat 97 199 ++ 233 :: rs " and more") (rs "Sure.") = None
  /\ exchange_summary (rs "Sure.") (repeat 97 199 ++ 233 :: rs " and more") = None.
Proof.
  apply (exchange_summary_panics_mid_char (repeat 97 199) 233 (rs " and more") (rs "Sure.")).
  - vm_compute. reflexivity.
  - apply Nat.leb_le. vm_compute. reflexivity.
Defined.

